(** * GameWatcher: scripts/fix_audio_associations.py

    A shallow embedding of the catalog repair script and the properties its
    specification states about it.

    The script reads a JSON catalog of dialogue entries, lists the
    per-speaker directories of audio files under [voices/], gives every
    entry without a usable audio path the first unused file of its speaker,
    and writes the catalog back.

    Conventions of the model:
    - a parsed JSON value is a [json]; a Python [dict] is the association
      list of its items in insertion order (the order [json.dump] writes);
    - a [pathlib.Path] is its anchor and the list of its components
      (POSIX flavour);
    - the file system is a record of oracles, [FileSystem];
    - a Python exception is a [Raise] in the [result] monad;
    - console output is not part of the model, except that the expressions
      a [print] evaluates may raise. *)

From Stdlib Require Import PrimFloat Ascii String.
From stdpp Require Import gmap strings list fin_maps.

Set Warnings "-register-all".


Open Scope string_scope.
Open Scope nat_scope.

(** ** Exceptions and results *)

Inductive exn :=
  | KeyError (key : string)
  | TypeError
  | OverflowError
  | ValueError
  | OSError (what : string)
  | JSONDecodeError.

Inductive result (A : Type) :=
  | Ok (a : A)
  | Raise (e : exn).
Arguments Ok {A} a.
Arguments Raise {A} e.

(** Sequencing: the first exception raised ends the computation. *)
Definition rbind {A B} (m : result A) (f : A → result B) : result B :=
  match m with
  | Ok a => f a
  | Raise e => Raise e
  end.

Notation "'let!' x ':=' m 'in' k" := (rbind m (λ x, k))
  (at level 10, x pattern, m at level 100, k at level 200,
   format "'[v' 'let!'  x  ':='  m  'in' '/' k ']'").

(** ** Parsed JSON, as [json.load] builds it *)

Inductive json :=
  | JNull
  | JBool (b : bool)
  | JInt (z : Z)
  | JFloat (f : float)
  | JStr (s : string)
  | JList (l : list json)
  | JObj (items : list (string * json)).

(** [bool(v)]. *)
Definition truthy (v : json) : bool :=
  match v with
  | JNull => false
  | JBool b => b
  | JInt z => negb (z =? 0)%Z
  | JFloat f => negb (PrimFloat.eqb f PrimFloat.zero)
  | JStr s => negb (String.eqb s "")
  | JList l => negb (bool_decide (l = []))
  | JObj items => negb (bool_decide (items = []))
  end.

(** ** Python dicts with string keys *)

Abbreviation pydict := (list (string * json)).

(** [d.get(k)]: the value of the first (and, in a dict, only) item with
    key [k]. *)
Fixpoint dict_get (d : pydict) (k : string) : option json :=
  match d with
  | [] => None
  | (k', v) :: rest => if decide (k' = k) then Some v else dict_get rest k
  end.

(** [d[k]]. *)
Definition dict_getitem (d : pydict) (k : string) : result json :=
  match dict_get d k with
  | Some v => Ok v
  | None => Raise (KeyError k)
  end.

(** [d[k] = v]: an existing key keeps its place, a new one goes last. *)
Fixpoint dict_set (d : pydict) (k : string) (v : json) : pydict :=
  match d with
  | [] => [(k, v)]
  | (k', v') :: rest =>
      if decide (k' = k) then (k', v) :: rest else (k', v') :: dict_set rest k v
  end.

(** [v[:50]] is evaluated for the progress line: only [str] and [list]
    can be sliced. *)
Definition py_slice_ok (v : json) : result unit :=
  match v with
  | JStr _ | JList _ => Ok ()
  | _ => Raise TypeError
  end.

(** ** Paths *)

Record Path := mkPath { anchor : string; parts : list string }.

#[global] Instance Path_eq_dec : EqDecision Path.
Proof. solve_decision. Defined.

(** [p.parent]: a path without components is its own parent. *)
Definition parent (p : Path) : Path := mkPath (anchor p) (removelast (parts p)).

(** [p / name], for a relative one-component [name]. *)
Definition joinpath (p : Path) (name : string) : Path :=
  mkPath (anchor p) (parts p ++ [name]).
Infix "/:" := joinpath (at level 40, left associativity).

(** [p.name]. *)
Definition path_name (p : Path) : string := List.last (parts p) "".

Fixpoint join_parts (l : list string) : string :=
  match l with
  | [] => ""
  | [x] => x
  | x :: rest => x +:+ "/" +:+ join_parts rest
  end.

(** [str(p)]. *)
Definition path_str (p : Path) : string :=
  match anchor p, parts p with
  | "", [] => "."
  | a, l => a +:+ join_parts l
  end.

(** [fnmatch(name, "*.mp3")], case-sensitive. *)
Definition ends_with (suffix s : string) : bool :=
  let n := String.length suffix in
  let m := String.length s in
  (n <=? m)%nat && String.eqb (String.substring (m - n) n s) suffix.

Definition is_mp3 (name : string) : bool := ends_with ".mp3" name.

(** ** The file system *)

Record FileSystem := {
  (** [Path.exists()] *)
  fs_exists : Path → bool;
  (** [Path.is_dir()] *)
  fs_is_dir : Path → bool;
  (** the names a directory lists, in listing order *)
  fs_listdir : Path → result (list string);
  (** [open(p)] followed by [json.load] *)
  fs_load_json : Path → result json;
  (** [os.path.exists(s)] for a [str] *)
  fs_str_exists : string → bool;
  (** whether an [int] is an open file descriptor *)
  fs_fd_open : Z → bool;
}.

(** [os.path.exists(v)]: a [str] is looked up as a path; an [int] (and a
    [bool], which is one) is taken as a file descriptor, and one that does
    not fit a C int overflows; any other value is refused by [os.stat]. *)
Definition fd_exists (fs : FileSystem) (fd : Z) : result bool :=
  if bool_decide (-2147483648 ≤ fd ≤ 2147483647)%Z
  then Ok (fs_fd_open fs fd)
  else Raise OverflowError.

Definition os_path_exists (fs : FileSystem) (v : json) : result bool :=
  match v with
  | JStr s => Ok (fs_str_exists fs s)
  | JInt z => fd_exists fs z
  | JBool b => fd_exists fs (if b then 1 else 0)
  | _ => Raise TypeError
  end.

(** [speaker_dir.glob("*.mp3")]: the children of the directory whose name
    matches, in listing order; a directory that cannot be listed yields
    nothing. *)
Definition glob_mp3 (fs : FileSystem) (dir : Path) : list Path :=
  match fs_listdir fs dir with
  | Ok names => joinpath dir <$> filter (λ n, is_mp3 n = true) names
  | Raise _ => []
  end.

(** [voices_dir.iterdir()]. *)
Definition iterdir (fs : FileSystem) (dir : Path) : result (list Path) :=
  let! names := fs_listdir fs dir in
  Ok (joinpath dir <$> names).

(** ** The audio inventory (lines 37-44) *)

Abbreviation inventory := (gmap string (list Path)).

Definition scan_step (fs : FileSystem)
    (audio_files_by_speaker : inventory) (speaker_dir : Path) : inventory :=
  if fs_is_dir fs speaker_dir && negb (String.eqb (path_name speaker_dir) "previews")
  then
    let speaker := path_name speaker_dir in
    let audio_files := glob_mp3 fs speaker_dir in
    match audio_files with
    | [] => audio_files_by_speaker
    | _ :: _ => <[speaker := audio_files]> audio_files_by_speaker
    end
  else audio_files_by_speaker.

Definition scan_inventory (fs : FileSystem) (voices_dir : Path) : result inventory :=
  let! dirs := iterdir fs voices_dir in
  Ok (foldl (scan_step fs) ∅ dirs).

(** ** The repair loop (lines 50-79) *)

(** [speaker in audio_files_by_speaker], and the list it maps to: a [list]
    or a [dict] cannot be hashed; a value that is not a [str] equals no
    directory name. *)
Definition inventory_find (inv : inventory) (speaker : json)
    : result (option (string * list Path)) :=
  match speaker with
  | JList _ | JObj _ => Raise TypeError
  | JStr s => Ok (pair s <$> inv !! s)
  | _ => Ok None
  end.

(** [l.remove(x)]: drops the first element equal to [x]. *)
Fixpoint py_list_remove (x : Path) (l : list Path) : result (list Path) :=
  match l with
  | [] => Raise ValueError
  | y :: rest =>
      if decide (y = x) then Ok rest
      else let! rest' := py_list_remove x rest in Ok (y :: rest')
  end.

(** Lines 54-55: whether the entry is skipped as already correct. *)
Definition has_valid_audio (fs : FileSystem) (d : pydict) : result bool :=
  let current_audio_path := default (JStr "") (dict_get d "AudioPath") in
  if truthy current_audio_path
  then os_path_exists fs current_audio_path
  else Ok false.

(** Lines 72-75. *)
Definition assign_audio (d : pydict) (new_path : string) : pydict :=
  let d := dict_set d "AudioPath" (JStr new_path) in
  let d := dict_set d "HasAudio" (JBool true) in
  let d := dict_set d "AudioStatus" (JStr "✅ Ready") in
  dict_set d "AudioStatusColor" (JStr "Green").

(** One iteration of the loop over the catalog. The result is the entry
    as the iteration leaves it, the inventory as it leaves it, and the file
    taken at line 65, if any. *)
Definition repair_entry (fs : FileSystem) (inv : inventory) (dialogue : json)
    : result (json * inventory * option Path) :=
  match dialogue with
  | JObj d =>
      let! speaker := dict_getitem d "Speaker" in
      let! skip := has_valid_audio fs d in
      if (skip : bool) then Ok (dialogue, inv, None)
      else
        let! found := inventory_find inv speaker in
        match found with
        | Some (s, (audio_file :: _) as available_files) =>
            let new_path := path_str audio_file in
            let! _ := dict_getitem d "Id" in
            let! text := dict_getitem d "Text" in
            let! _ := py_slice_ok text in
            let! rest := py_list_remove audio_file available_files in
            Ok (JObj (assign_audio d new_path), <[s := rest]> inv, Some audio_file)
        | _ => Ok (dialogue, inv, None)
        end
  | _ => Raise TypeError
  end.

Fixpoint repair_loop (fs : FileSystem) (inv : inventory) (dialogues : list json)
    : result (list json * inventory * list (option Path)) :=
  match dialogues with
  | [] => Ok ([], inv, [])
  | dialogue :: rest =>
      let! (dialogue', inv', taken) := repair_entry fs inv dialogue in
      let! (rest', inv'', log) := repair_loop fs inv' rest in
      Ok (dialogue' :: rest', inv'', taken :: log)
  end.

(** [updates_made], as line 81 reports it. *)
Definition updates_made (log : list (option Path)) : nat :=
  length (filter is_Some log).

(** ** Locating the repository (lines 12-19) *)

(** Line 16. *)
Definition has_marker (fs : FileSystem) (current : Path) : bool :=
  fs_exists fs (current /: "GameWatcher.sln") || fs_exists fs (current /: ".git").

(** Why the [while] loop of lines 15-18 stopped. *)
Inductive walk :=
  | Found (root : Path)
  | ReachedTop
  | OutOfFuel.

Fixpoint walk_up (fs : FileSystem) (fuel : nat) (current : Path) : walk :=
  match fuel with
  | 0 => OutOfFuel
  | S fuel =>
      if decide (parent current = current) then ReachedTop
      else if has_marker fs current then Found current
      else walk_up fs fuel (parent current)
  end.

(** Every iteration drops one component, so one more than their number is
    fuel enough (see [walk_up_fuel]). *)
Definition find_repo_root (fs : FileSystem) (file : Path) : Path :=
  let current := parent (parent file) in
  match walk_up fs (S (length (parts current))) current with
  | Found root => root
  | _ => parent (parent file)
  end.

(** ** The script (lines 21-87) *)

(** [len(dialogues)], line 34. *)
Definition py_len_ok (v : json) : result unit :=
  match v with
  | JStr _ | JList _ | JObj _ => Ok ()
  | _ => Raise TypeError
  end.

(** What [for dialogue in dialogues] goes through: the elements of a list,
    the keys of a dict, the characters of a string. *)
Definition py_iter (v : json) : result (list json) :=
  match v with
  | JList l => Ok l
  | JObj items => Ok ((λ kv, JStr kv.1) <$> items)
  | JStr s => Ok ((λ c, JStr (String c "")) <$> String.list_ascii_of_string s)
  | _ => Raise TypeError
  end.

Definition catalog_path (repo_root : Path) : Path :=
  repo_root /: "SimpleLoop" /: "dialogue_catalog.json".

Definition voices_path (repo_root : Path) : Path := repo_root /: "voices".

(** The run from a known repository root. The result is the value handed
    to [json.dump] and the files taken, entry by entry. Only the entries of
    a list are dicts the loop can update in place. *)
Definition run_at (fs : FileSystem) (repo_root : Path)
    : result (json * list (option Path)) :=
  let! dialogues := fs_load_json fs (catalog_path repo_root) in
  let! _ := py_len_ok dialogues in
  let! inv := scan_inventory fs (voices_path repo_root) in
  let! items := py_iter dialogues in
  let! (out, _, log) := repair_loop fs inv items in
  match dialogues with
  | JList _ => Ok (JList out, log)
  | _ => Ok (dialogues, log)
  end.

Definition main (fs : FileSystem) (file : Path) : result (json * list (option Path)) :=
  run_at fs (find_repo_root fs file).

(** ** Vocabulary of the properties *)

(** The four fields lines 72-75 write. *)
Definition touched : list string :=
  ["AudioPath"; "HasAudio"; "AudioStatus"; "AudioStatusColor"].

(** The items of an entry under every other key, in their order. *)
Definition untouched_items (d : pydict) : pydict :=
  filter (λ kv, kv.1 ∉ touched) d.

(** The entry is not skipped at line 55: its audio path is empty, or
    missing, or names nothing that exists. *)
Definition needs_repair (fs : FileSystem) (d : pydict) : Prop :=
  has_valid_audio fs d = Ok false.

(** The pool of a speaker: the files still unassigned. *)
Definition pool (inv : inventory) (s : string) : list Path :=
  default [] (inv !! s).

Definition entry_speaker_is (s : string) (dialogue : json) : bool :=
  match dialogue with
  | JObj d =>
      match dict_get d "Speaker" with
      | Some (JStr s') => bool_decide (s' = s)
      | _ => false
      end
  | _ => false
  end.

(** The files given to the entries of speaker [s], in catalog order. *)
Definition taken_by (s : string) (dialogues : list json) (log : list (option Path))
    : list Path :=
  omap (λ dt, if entry_speaker_is s dt.1 then dt.2 else None) (zip dialogues log).

(** A dialogue entry as the catalog format describes it: an object with an
    identifier, a speaker name, a text and, when it has one, an audio path
    that is a string. *)
Definition entry_wf (dialogue : json) : Prop :=
  match dialogue with
  | JObj d =>
      is_Some (dict_get d "Id") ∧
      (∃ s, dict_get d "Speaker" = Some (JStr s)) ∧
      (∃ t, dict_get d "Text" = Some (JStr t)) ∧
      (∀ v, dict_get d "AudioPath" = Some v → ∃ p, v = JStr p)
  | _ => False
  end.

(** A file name holds no separator. *)
Definition no_sep (name : string) : bool :=
  forallb (λ c, negb (Ascii.eqb c "/"%char)) (String.list_ascii_of_string name).

(** What a directory lists: distinct names, each a file name. *)
Definition names_ok (names : list string) : Prop :=
  NoDup names ∧ Forall (λ n, no_sep n = true) names.

Definition listing_ok (fs : FileSystem) (dir : Path) : Prop :=
  match fs_listdir fs dir with
  | Ok names => names_ok names
  | Raise _ => True
  end.

(** The voices directory and the directories it lists list properly. *)
Definition voices_ok (fs : FileSystem) (voices_dir : Path) : Prop :=
  listing_ok fs voices_dir ∧
  match fs_listdir fs voices_dir with
  | Ok names => Forall (λ name, listing_ok fs (voices_dir /: name)) names
  | Raise _ => True
  end.

#[global] Instance names_ok_dec names : Decision (names_ok names).
Proof. unfold names_ok. apply _. Defined.

#[global] Instance listing_ok_dec fs dir : Decision (listing_ok fs dir).
Proof. unfold listing_ok. destruct (fs_listdir fs dir); apply _. Defined.

#[global] Instance voices_ok_dec fs voices_dir : Decision (voices_ok fs voices_dir).
Proof. unfold voices_ok. destruct (fs_listdir fs voices_dir); apply _. Defined.

(** What precedes a component appended to [p] in [str(p / name)]. *)
Fixpoint join_prefix (l : list string) : string :=
  match l with
  | [] => ""
  | x :: rest => x +:+ "/" +:+ join_prefix rest
  end.

Definition path_prefix (p : Path) : string := anchor p +:+ join_prefix (parts p).

(** Every pool holds distinct files of the speaker's own directory. *)
Definition pools_ok (voices_dir : Path) (inv : inventory) : Prop :=
  ∀ s files, inv !! s = Some files →
    no_sep s = true ∧ NoDup files ∧
    ∀ f, f ∈ files → ∃ name, f = voices_dir /: s /: name.

(** When the scan leaves a speaker without files, or the run has used
    them up. *)
Definition no_file_for (fs : FileSystem) (voices_dir : Path)
    (inv : inventory) (s : string) : Prop :=
  (∀ names, fs_listdir fs voices_dir = Ok names → s ∉ names) ∨
  fs_is_dir fs (voices_dir /: s) = false ∨
  glob_mp3 fs (voices_dir /: s) = [] ∨
  pool inv s = [].

(** The walk of [find_repo_root] ends at the top without having met a
    marker. *)
Definition no_root_found (fs : FileSystem) (file : Path) : Prop :=
  let current := parent (parent file) in
  walk_up fs (S (length (parts current))) current = ReachedTop.

(** The script raises whenever no root is found. *)
Definition aborts_without_root (fs : FileSystem) (file : Path) : Prop :=
  no_root_found fs file → ∃ e, main fs file = Raise e.

(** What an iteration that does not raise has done with the entry [d]:
    skipped it as already correct, left it for want of a file, or given it
    the first file of its speaker's pool. *)
Inductive step_case (fs : FileSystem) (inv : inventory) (d : pydict)
    : json → inventory → option Path → Prop :=
  | StepValid :
      is_Some (dict_get d "Speaker") →
      has_valid_audio fs d = Ok true →
      step_case fs inv d (JObj d) inv None
  | StepUnresolved speaker found :
      dict_get d "Speaker" = Some speaker →
      needs_repair fs d →
      inventory_find inv speaker = Ok found →
      (found = None ∨ ∃ s, found = Some (s, [])) →
      step_case fs inv d (JObj d) inv None
  | StepAssigned s audio_file rest :
      dict_get d "Speaker" = Some (JStr s) →
      needs_repair fs d →
      inv !! s = Some (audio_file :: rest) →
      is_Some (dict_get d "Id") →
      (∃ text, dict_get d "Text" = Some text ∧ py_slice_ok text = Ok ()) →
      step_case fs inv d (JObj (assign_audio d (path_str audio_file)))
        (<[s := rest]> inv) (Some audio_file).

(** The directory [k] levels above [p]. *)
Definition ancestor (k : nat) (p : Path) : Path := Nat.iter k parent p.

(** An entry of speaker [s] that the loop does not skip at line 55. *)
Definition wants_file (fs : FileSystem) (s : string) (dialogue : json) : bool :=
  entry_speaker_is s dialogue &&
  match dialogue with
  | JObj d =>
      match has_valid_audio fs d with
      | Ok false => true
      | _ => false
      end
  | _ => false
  end.


(** The keys of an entry, in the order [json.dump] writes them. *)
Definition keys (d : pydict) : list string := d.*1.

(** ** A small repository to run the script on *)

Module Demo.

Definition repo : Path := mkPath "/" ["repo"].
Definition script : Path := repo /: "scripts" /: "fix_audio_associations.py".
Definition voices : Path := voices_path repo.

Definition entry (id : Z) (speaker text audio_path : string) : json :=
  JObj [("Id", JInt id); ("Speaker", JStr speaker); ("Text", JStr text);
        ("AudioPath", JStr audio_path); ("HasAudio", JBool false);
        ("AudioStatus", JStr "Missing"); ("AudioStatusColor", JStr "Red");
        ("Mood", JStr "stern")].

(** An entry without the audio-path field. *)
Definition bare_entry (id : Z) (speaker text : string) : json :=
  JObj [("Id", JInt id); ("Speaker", JStr speaker); ("Text", JStr text)].

Definition catalog : list json :=
  [ entry 1 "Guard" "Halt!" "";
    entry 2 "Merchant" "Fine wares." "/repo/voices/Merchant/m.mp3";
    entry 3 "Guard" "Move along." "/old/guard_3.mp3";
    entry 4 "Ghost" "Boo." "";
    entry 5 "Guard" "Who goes there?" "";
    bare_entry 6 "Merchant" "Come again." ].

Definition listing (p : Path) : result (list string) :=
  if decide (p = voices) then Ok ["Guard"; "previews"; "Merchant"; "notes.txt"]
  else if decide (p = voices /: "Guard") then Ok ["a.mp3"; "b.mp3"; "readme.txt"]
  else if decide (p = voices /: "previews") then Ok ["p.mp3"]
  else if decide (p = voices /: "Merchant") then Ok ["m.mp3"]
  else Raise (OSError "ENOENT").

Definition fs : FileSystem := {|
  fs_exists p := bool_decide (p = repo /: ".git");
  fs_is_dir p :=
    bool_decide (p ∈ [voices /: "Guard"; voices /: "previews"; voices /: "Merchant"]);
  fs_listdir := listing;
  fs_load_json p :=
    if decide (p = catalog_path repo) then Ok (JList catalog)
    else Raise (OSError "ENOENT");
  fs_str_exists s :=
    bool_decide (s ∈ ["/repo/voices/Guard/a.mp3"; "/repo/voices/Guard/b.mp3";
                      "/repo/voices/Merchant/m.mp3"; "/repo/voices/previews/p.mp3"]);
  fs_fd_open z := bool_decide (0 ≤ z ≤ 2)%Z;
|}.

(** The same tree without any marker of a repository. *)
Definition fs_unmarked : FileSystem := {|
  fs_exists p := false;
  fs_is_dir := fs_is_dir fs;
  fs_listdir := listing;
  fs_load_json := fs_load_json fs;
  fs_str_exists := fs_str_exists fs;
  fs_fd_open := fs_fd_open fs;
|}.

Definition inv0 : inventory :=
  {[ "Guard" := [voices /: "Guard" /: "a.mp3"; voices /: "Guard" /: "b.mp3"];
     "Merchant" := [voices /: "Merchant" /: "m.mp3"] ]}.

(** The catalog after a run, the files taken and the inventory left. *)
Definition ready (id : Z) (speaker text audio_path : string) : json :=
  JObj [("Id", JInt id); ("Speaker", JStr speaker); ("Text", JStr text);
        ("AudioPath", JStr audio_path); ("HasAudio", JBool true);
        ("AudioStatus", JStr "✅ Ready"); ("AudioStatusColor", JStr "Green");
        ("Mood", JStr "stern")].

Definition out : list json :=
  [ ready 1 "Guard" "Halt!" "/repo/voices/Guard/a.mp3";
    entry 2 "Merchant" "Fine wares." "/repo/voices/Merchant/m.mp3";
    ready 3 "Guard" "Move along." "/repo/voices/Guard/b.mp3";
    entry 4 "Ghost" "Boo." "";
    entry 5 "Guard" "Who goes there?" "";
    JObj [("Id", JInt 6); ("Speaker", JStr "Merchant"); ("Text", JStr "Come again.");
          ("AudioPath", JStr "/repo/voices/Merchant/m.mp3"); ("HasAudio", JBool true);
          ("AudioStatus", JStr "✅ Ready"); ("AudioStatusColor", JStr "Green")] ].

Definition log : list (option Path) :=
  [ Some (voices /: "Guard" /: "a.mp3"); None; Some (voices /: "Guard" /: "b.mp3");
    None; None; Some (voices /: "Merchant" /: "m.mp3") ].

Definition inv_left : inventory := {[ "Guard" := []; "Merchant" := [] ]}.

(** A second run over the result, with the inventory listed anew. *)
Definition out2 : list json :=
  <[4 := ready 5 "Guard" "Who goes there?" "/repo/voices/Guard/a.mp3"]> out.

Definition log2 : list (option Path) :=
  [ None; None; None; None; Some (voices /: "Guard" /: "a.mp3"); None ].

Definition inv_left2 : inventory :=
  {[ "Guard" := [voices /: "Guard" /: "b.mp3"];
     "Merchant" := [voices /: "Merchant" /: "m.mp3"] ]}.

End Demo.

(** ** A script deep in a tree with two marked directories *)

Module Deep.

Definition top : Path := mkPath "/" [].
Definition project : Path := top /: "home" /: "dev" /: "GameWatcher".
Definition script : Path := project /: "tools" /: "scripts" /: "fix_audio_associations.py".

(** [.git] in the project directory, [GameWatcher.sln] two levels higher. *)
Definition fs : FileSystem := {|
  fs_exists p :=
    bool_decide (p ∈ [project /: ".git"; top /: "home" /: "GameWatcher.sln"]);
  fs_is_dir p := false;
  fs_listdir p := Raise (OSError "ENOENT");
  fs_load_json p := Raise (OSError "ENOENT");
  fs_str_exists s := false;
  fs_fd_open z := false;
|}.

(** Markers in the top directory only. *)
Definition fs_top_marked : FileSystem := {|
  fs_exists p := bool_decide (p ∈ [top /: ".git"; top /: "GameWatcher.sln"]);
  fs_is_dir p := false;
  fs_listdir p := Raise (OSError "ENOENT");
  fs_load_json p := Raise (OSError "ENOENT");
  fs_str_exists s := false;
  fs_fd_open z := false;
|}.

End Deep.

(** ** The demonstration repository with another catalog *)

Module Odd.

Definition fs_with (dialogues : json) : FileSystem := {|
  fs_exists := fs_exists Demo.fs;
  fs_is_dir := fs_is_dir Demo.fs;
  fs_listdir := fs_listdir Demo.fs;
  fs_load_json p :=
    if decide (p = catalog_path Demo.repo) then Ok dialogues
    else Raise (OSError "ENOENT");
  fs_str_exists := fs_str_exists Demo.fs;
  fs_fd_open := fs_fd_open Demo.fs;
|}.

(** An entry without identifier. *)
Definition nameless : list (string * json) :=
  [("Speaker", JStr "Guard"); ("Text", JStr "Halt!"); ("AudioPath", JStr "")].

End Odd.

(** * Properties *)

(** ** Results *)

Lemma rbind_Ok {A B} (f : A → result B) (m : result A) (b : B) :
  rbind m f = Ok b ↔ ∃ a, m = Ok a ∧ f a = Ok b.
Proof.
  destruct m as [a|e]; simpl.
  - split; [eauto | intros (a' & [= ->] & H); exact H].
  - split; [discriminate | intros (a' & [=] & _)].
Qed.

(** Splits a successful sequence into its successful steps. *)
Ltac inv_ok H :=
  let a := fresh "r" in
  let H1 := fresh "E" in
  apply rbind_Ok in H as (a & H1 & H).

(** ** Dicts *)

Lemma dict_get_set_eq d k v : dict_get (dict_set d k v) k = Some v.
Proof.
  induction d as [|[k' v'] d IH]; simpl.
  - by rewrite decide_True.
  - destruct (decide (k' = k)) as [->|Hne]; simpl.
    + by rewrite decide_True.
    + by rewrite decide_False.
Qed.

Lemma dict_get_set_ne d k k' v :
  k ≠ k' → dict_get (dict_set d k v) k' = dict_get d k'.
Proof.
  intros Hne. induction d as [|[k0 v0] d IH]; simpl.
  - by rewrite decide_False.
  - destruct (decide (k0 = k)) as [->|Hk]; simpl.
    + by rewrite !decide_False.
    + by rewrite IH.
Qed.

Lemma untouched_items_set d k v :
  k ∈ touched → untouched_items (dict_set d k v) = untouched_items d.
Proof.
  intros Hk. unfold untouched_items.
  induction d as [|[k' v'] d IH]; simpl.
  - rewrite filter_cons_False; [done | simpl; tauto].
  - destruct (decide (k' = k)) as [->|Hne].
    + rewrite !filter_cons_False; simpl; tauto.
    + rewrite !filter_cons. simpl. by rewrite IH.
Qed.

(** The keys of an entry stay where they are; new ones are appended. *)
Lemma dict_set_keys_prefix d k v : (d.*1) `prefix_of` ((dict_set d k v).*1).
Proof.
  induction d as [|[k' v'] d IH]; simpl.
  - apply prefix_nil.
  - destruct (decide (k' = k)); simpl.
    + done.
    + by apply prefix_cons.
Qed.

Lemma assign_audio_get d new_path :
  let d' := assign_audio d new_path in
  dict_get d' "AudioPath" = Some (JStr new_path) ∧
  dict_get d' "HasAudio" = Some (JBool true) ∧
  dict_get d' "AudioStatus" = Some (JStr "✅ Ready") ∧
  dict_get d' "AudioStatusColor" = Some (JStr "Green").
Proof.
  unfold assign_audio. cbv zeta. repeat split.
  - rewrite !dict_get_set_ne by done. apply dict_get_set_eq.
  - rewrite !dict_get_set_ne by done. apply dict_get_set_eq.
  - rewrite !dict_get_set_ne by done. apply dict_get_set_eq.
  - apply dict_get_set_eq.
Qed.

Lemma assign_audio_other d new_path k :
  k ∉ touched → dict_get (assign_audio d new_path) k = dict_get d k.
Proof.
  intros Hk. unfold assign_audio.
  rewrite !dict_get_set_ne; [done | | | |];
    intros <-; apply Hk; unfold touched; set_solver.
Qed.

Lemma assign_audio_untouched d new_path :
  untouched_items (assign_audio d new_path) = untouched_items d.
Proof.
  unfold assign_audio.
  rewrite !untouched_items_set; [done | | | |]; unfold touched; set_solver.
Qed.

Lemma assign_audio_keys_prefix d new_path :
  (d.*1) `prefix_of` ((assign_audio d new_path).*1).
Proof.
  unfold assign_audio.
  repeat (etrans; [|apply dict_set_keys_prefix]). done.
Qed.

(** ** Paths *)

Lemma parent_joinpath p name : parent (p /: name) = p.
Proof.
  destruct p as [a l]. unfold parent, joinpath. simpl.
  by rewrite removelast_last.
Qed.

Lemma path_name_joinpath p name : path_name (p /: name) = name.
Proof. unfold path_name, joinpath. simpl. apply last_last. Qed.

Lemma joinpath_inj p q m n : p /: m = q /: n → p = q ∧ m = n.
Proof.
  destruct p as [a l], q as [b k]. unfold joinpath. simpl.
  intros [= -> H]. apply app_inj_tail in H as [-> ->]. done.
Qed.

Lemma string_app_nil (b : string) : "" +:+ b = b.
Proof. reflexivity. Qed.

Lemma string_app_cons c (a b : string) : String c a +:+ b = String c (a +:+ b).
Proof. reflexivity. Qed.

Lemma string_app_assoc (a b c : string) : (a +:+ b) +:+ c = a +:+ b +:+ c.
Proof.
  induction a as [|x a IH]; [done|].
  by rewrite !string_app_cons, IH.
Qed.

Lemma join_parts_snoc l name :
  join_parts (l ++ [name]) = join_prefix l +:+ name.
Proof.
  induction l as [|x l IH]; [done|].
  change (join_prefix (x :: l)) with (x +:+ "/" +:+ join_prefix l).
  rewrite !string_app_assoc, <- IH.
  destruct l; done.
Qed.

Lemma join_prefix_snoc l name :
  join_prefix (l ++ [name]) = join_prefix l +:+ name +:+ "/".
Proof.
  induction l as [|x l IH]; simpl; [done|].
  by rewrite IH, !string_app_assoc.
Qed.

Lemma path_str_joinpath p name : path_str (p /: name) = path_prefix p +:+ name.
Proof.
  destruct p as [a l]. unfold path_str, path_prefix, joinpath. simpl.
  rewrite string_app_assoc, <- join_parts_snoc.
  destruct a; [|done]. destruct l; done.
Qed.

(** [str] of a file in a speaker's directory. *)
Lemma path_str_file p s name :
  path_str (p /: s /: name) = path_prefix p +:+ s +:+ "/" +:+ name.
Proof.
  rewrite path_str_joinpath. unfold path_prefix, joinpath. simpl.
  by rewrite join_prefix_snoc, !string_app_assoc.
Qed.

Lemma no_sep_cons c s :
  no_sep (String c s) = negb (Ascii.eqb c "/"%char) && no_sep s.
Proof. done. Qed.

(** A name without separator ends at the first separator. *)
Lemma sep_split_inj s s' n n' :
  no_sep s = true → no_sep s' = true →
  s +:+ "/" +:+ n = s' +:+ "/" +:+ n' → s = s' ∧ n = n'.
Proof.
  revert s'. induction s as [|c s IH]; intros [|c' s'] Hs Hs' H;
    repeat (rewrite string_app_nil in H || rewrite string_app_cons in H).
  - by injection H as ->.
  - injection H as <- _. by rewrite no_sep_cons in Hs'.
  - injection H as -> _. by rewrite no_sep_cons in Hs.
  - injection H as -> H.
    rewrite no_sep_cons in Hs, Hs'.
    apply andb_prop in Hs as [_ Hs]. apply andb_prop in Hs' as [_ Hs'].
    destruct (IH _ Hs Hs' H) as [-> ->]. done.
Qed.

Lemma path_str_file_inj p s s' n n' :
  no_sep s = true → no_sep s' = true →
  path_str (p /: s /: n) = path_str (p /: s' /: n') → s = s' ∧ n = n'.
Proof.
  intros Hs Hs'. rewrite !path_str_file. intros H.
  apply (inj (String.app _)) in H. by apply sep_split_inj.
Qed.

(** ** The inventory *)

#[local] Instance joinpath_name_inj p : Inj (=) (=) (joinpath p).
Proof. intros m n H. by apply joinpath_inj in H as [_ ->]. Qed.

Lemma glob_mp3_NoDup fs dir : listing_ok fs dir → NoDup (glob_mp3 fs dir).
Proof.
  unfold listing_ok, glob_mp3. destruct (fs_listdir fs dir) as [names|e].
  - intros [Hnd _]. apply (NoDup_fmap_2 _). by apply NoDup_filter.
  - intros _. apply NoDup_nil_2.
Qed.

Lemma glob_mp3_children fs dir f :
  f ∈ glob_mp3 fs dir → ∃ name, f = dir /: name ∧ is_mp3 name = true.
Proof.
  unfold glob_mp3. destruct (fs_listdir fs dir) as [names|e].
  - intros (name & -> & Hin)%list_elem_of_fmap.
    apply list_elem_of_filter in Hin as [Hmp3 _]. eauto.
  - by intros ?%elem_of_nil.
Qed.

(** Where a pool of the scanned inventory comes from. *)
Lemma scan_foldl_lookup fs voices_dir names inv s files :
  foldl (scan_step fs) inv (joinpath voices_dir <$> names) !! s = Some files →
  inv !! s = Some files ∨
  (s ∈ names ∧ fs_is_dir fs (voices_dir /: s) = true ∧ s ≠ "previews" ∧
   files = glob_mp3 fs (voices_dir /: s) ∧ files ≠ []).
Proof.
  revert inv. induction names as [|name names IH]; intros inv; simpl; [by left|].
  intros [H|(Hin & ? & ? & ? & ?)]%IH.
  - unfold scan_step in H. rewrite path_name_joinpath in H.
    destruct (fs_is_dir fs (voices_dir /: name)) eqn:Hdir; simpl in H; [|by left].
    destruct (String.eqb name "previews") eqn:Hprev; simpl in H; [by left|].
    apply String.eqb_neq in Hprev.
    destruct (glob_mp3 fs (voices_dir /: name)) as [|f fs'] eqn:Hglob; [by left|].
    destruct (decide (name = s)) as [->|Hne].
    + rewrite lookup_insert_eq in H. injection H as <-.
      right. rewrite Hglob. repeat split; try done. apply list_elem_of_here.
    + rewrite lookup_insert_ne in H by done. by left.
  - right. repeat split; try done. by apply list_elem_of_further.
Qed.

Lemma scan_inventory_lookup fs voices_dir inv s files :
  scan_inventory fs voices_dir = Ok inv →
  inv !! s = Some files →
  ∃ names, fs_listdir fs voices_dir = Ok names ∧ s ∈ names ∧
    fs_is_dir fs (voices_dir /: s) = true ∧ s ≠ "previews" ∧
    files = glob_mp3 fs (voices_dir /: s) ∧ files ≠ [].
Proof.
  unfold scan_inventory, iterdir. intros H Hs.
  inv_ok H. inv_ok E. injection E as <-. injection H as <-.
  apply scan_foldl_lookup in Hs as [Hs|?]; [by rewrite lookup_empty in Hs|].
  exists r0. done.
Qed.

Lemma scan_pools_ok fs voices_dir inv :
  voices_ok fs voices_dir →
  scan_inventory fs voices_dir = Ok inv →
  pools_ok voices_dir inv.
Proof.
  intros [Htop Hsub] Hscan s files Hs.
  destruct (scan_inventory_lookup _ _ _ _ _ Hscan Hs)
    as (names & Hnames & Hin & _ & _ & -> & _).
  unfold listing_ok in Htop. rewrite Hnames in Htop, Hsub.
  destruct Htop as [_ Hsep].
  repeat split.
  - by apply (proj1 (Forall_forall _ _) Hsep).
  - apply glob_mp3_NoDup. by apply (proj1 (Forall_forall _ _) Hsub).
  - intros f (name & -> & _)%glob_mp3_children. eauto.
Qed.

(** ** One iteration *)

Section Loop.

Context (fs : FileSystem).

Lemma dict_getitem_Ok d k v : dict_getitem d k = Ok v ↔ dict_get d k = Some v.
Proof. unfold dict_getitem. destruct (dict_get d k); naive_solver. Qed.

Lemma py_list_remove_head x l : py_list_remove x (x :: l) = Ok l.
Proof. simpl. by rewrite decide_True. Qed.

Lemma inventory_find_Some inv speaker s files :
  inventory_find inv speaker = Ok (Some (s, files)) ↔
  speaker = JStr s ∧ inv !! s = Some files.
Proof.
  destruct speaker as [| | | |s'| |]; simpl;
    try (split; [discriminate | intros [[=] _]]).
  destruct (inv !! s') as [files'|] eqn:E; simpl; split.
  - intros [= -> ->]. done.
  - intros [[= ->] Hs]. rewrite E in Hs. by injection Hs as ->.
  - discriminate.
  - intros [[= ->] Hs]. by rewrite E in Hs.
Qed.

Lemma repair_entry_Ok inv dialogue dialogue' inv' taken :
  repair_entry fs inv dialogue = Ok (dialogue', inv', taken) →
  ∃ d, dialogue = JObj d ∧ step_case fs inv d dialogue' inv' taken.
Proof.
  destruct dialogue as [| | | | | |d]; try discriminate.
  intros H. exists d. split; [done|]. simpl in H.
  inv_ok H. rename r into speaker. apply dict_getitem_Ok in E.
  inv_ok H. rename r into skip. destruct skip.
  { injection H as <- <- <-. by apply StepValid. }
  inv_ok H. rename r into found.
  destruct found as [[s [|audio_file rest]]|].
  - injection H as <- <- <-. eapply StepUnresolved; eauto.
  - apply inventory_find_Some in E1 as [-> Hs].
    inv_ok H. apply dict_getitem_Ok in E1.
    inv_ok H. apply dict_getitem_Ok in E2.
    inv_ok H. destruct r1.
    rewrite py_list_remove_head in H. simpl in H.
    injection H as <- <- <-. apply StepAssigned; eauto.
  - injection H as <- <- <-. eapply StepUnresolved; eauto.
Qed.

(** ** The loop *)

Lemma repair_loop_cons_Ok inv dialogue rest out inv' log :
  repair_loop fs inv (dialogue :: rest) = Ok (out, inv', log) ↔
  ∃ dialogue' inv1 taken out' log',
    repair_entry fs inv dialogue = Ok (dialogue', inv1, taken) ∧
    repair_loop fs inv1 rest = Ok (out', inv', log') ∧
    out = dialogue' :: out' ∧ log = taken :: log'.
Proof.
  split.
  - intros H. cbn [repair_loop] in H.
    inv_ok H. destruct r as [[dialogue' inv1] taken].
    inv_ok H. destruct r as [[out' inv''] log'].
    injection H as <- <- <-. naive_solver.
  - intros (dialogue' & inv1 & taken & out' & log' & H1 & H2 & -> & ->).
    cbn [repair_loop]. rewrite H1. cbn [rbind]. rewrite H2. done.
Qed.

Lemma repair_loop_length inv dialogues out inv' log :
  repair_loop fs inv dialogues = Ok (out, inv', log) →
  length out = length dialogues ∧ length log = length dialogues.
Proof.
  revert inv out log.
  induction dialogues as [|dialogue rest IH]; intros inv out log H.
  - injection H as <- <- <-. done.
  - apply repair_loop_cons_Ok in H
      as (dialogue' & inv1 & taken & out' & log' & _ & H & -> & ->).
    apply IH in H as [Ho Hl]. simpl. by rewrite Ho, Hl.
Qed.

(** The iteration that handles the entry at index [i], and the run up to
    it. *)
Lemma repair_loop_lookup inv dialogues out inv' log i dialogue :
  repair_loop fs inv dialogues = Ok (out, inv', log) →
  dialogues !! i = Some dialogue →
  ∃ inv_i dialogue' inv_i' taken,
    repair_loop fs inv (take i dialogues) = Ok (take i out, inv_i, take i log) ∧
    repair_entry fs inv_i dialogue = Ok (dialogue', inv_i', taken) ∧
    out !! i = Some dialogue' ∧ log !! i = Some taken ∧
    repair_loop fs inv (take (S i) dialogues)
      = Ok (take (S i) out, inv_i', take (S i) log).
Proof.
  revert inv out log i.
  induction dialogues as [|d0 rest IH]; intros inv out log i H Hi; [done|].
  apply repair_loop_cons_Ok in H
    as (d0' & inv1 & t0 & out' & log' & Hstep & Hrest & -> & ->).
  destruct i as [|i].
  - injection Hi as <-. exists inv, d0', inv1, t0.
    repeat split; try done.
    change (take 1 (d0 :: rest)) with [d0].
    apply repair_loop_cons_Ok. naive_solver.
  - simpl in Hi. destruct (IH _ _ _ _ Hrest Hi)
      as (inv_i & d' & inv_i' & t & Hpre & Hstep' & Ho & Hl & Hpost).
    exists inv_i, d', inv_i', t. repeat split; try done.
    + change (take (S i) (d0 :: rest)) with (d0 :: take i rest).
      apply repair_loop_cons_Ok. naive_solver.
    + change (take (S (S i)) (d0 :: rest)) with (d0 :: take (S i) rest).
      apply repair_loop_cons_Ok. naive_solver.
Qed.

(** What the log says of an entry that was given a file. *)
Lemma log_assigned inv dialogues out inv' log i audio_file :
  repair_loop fs inv dialogues = Ok (out, inv', log) →
  log !! i = Some (Some audio_file) →
  ∃ d s inv_i rest,
    dialogues !! i = Some (JObj d) ∧
    dict_get d "Speaker" = Some (JStr s) ∧
    needs_repair fs d ∧
    repair_loop fs inv (take i dialogues) = Ok (take i out, inv_i, take i log) ∧
    inv_i !! s = Some (audio_file :: rest) ∧
    out !! i = Some (JObj (assign_audio d (path_str audio_file))).
Proof.
  intros Hrun Hl.
  destruct (repair_loop_length _ _ _ _ _ Hrun) as [_ Hlen].
  destruct (lookup_lt_is_Some_2 dialogues i) as [dialogue Hi].
  { rewrite <- Hlen. by eapply lookup_lt_Some. }
  destruct (repair_loop_lookup _ _ _ _ _ _ _ Hrun Hi)
    as (inv_i & d' & inv_i' & t & Hpre & Hstep & Ho & Hl' & _).
  rewrite Hl in Hl'. injection Hl' as <-.
  apply repair_entry_Ok in Hstep as (d & -> & Hcase).
  inversion Hcase; subst. exists d, s, inv_i, rest. done.
Qed.

(** ** Pools *)

Lemma pool_insert_eq inv s files : pool (<[s := files]> inv) s = files.
Proof. unfold pool. by rewrite lookup_insert_eq. Qed.

Lemma pool_insert_ne inv s s' files :
  s ≠ s' → pool (<[s := files]> inv) s' = pool inv s'.
Proof. intros Hne. unfold pool. by rewrite lookup_insert_ne. Qed.

Lemma taken_by_cons s dialogue rest taken log :
  taken_by s (dialogue :: rest) (taken :: log) =
  match (if entry_speaker_is s dialogue then taken else None) with
  | Some f => f :: taken_by s rest log
  | None => taken_by s rest log
  end.
Proof. done. Qed.

(** The files of a pool leave it from the front, in order, one for each
    entry of the speaker that is given a file. *)
Lemma pool_split inv dialogues out inv' log s :
  repair_loop fs inv dialogues = Ok (out, inv', log) →
  pool inv s = (taken_by s dialogues log ++ pool inv' s)%list.
Proof.
  revert inv out log.
  induction dialogues as [|dialogue rest IH]; intros inv out log Hrun.
  - by injection Hrun as <- <- <-.
  - apply repair_loop_cons_Ok in Hrun
      as (dialogue' & inv1 & taken & out' & log' & Hstep & Hrest & -> & ->).
    apply IH in Hrest. rewrite taken_by_cons.
    apply repair_entry_Ok in Hstep as (d & -> & Hcase).
    destruct Hcase as [| |s0 f files Hsp _ Hpool _ _].
    + by destruct (entry_speaker_is s (JObj d)).
    + by destruct (entry_speaker_is s (JObj d)).
    + simpl. rewrite Hsp. destruct (decide (s0 = s)) as [->|Hne].
      * rewrite bool_decide_eq_true_2 by done.
        rewrite pool_insert_eq in Hrest. unfold pool at 1. rewrite Hpool. simpl.
        by rewrite Hrest.
      * rewrite bool_decide_eq_false_2 by done.
        by rewrite pool_insert_ne in Hrest.
Qed.

Lemma taken_by_elem inv dialogues out inv' log i f :
  repair_loop fs inv dialogues = Ok (out, inv', log) →
  log !! i = Some (Some f) →
  ∃ d s, dialogues !! i = Some (JObj d) ∧
    dict_get d "Speaker" = Some (JStr s) ∧ f ∈ taken_by s dialogues log.
Proof.
  intros Hrun Hl.
  destruct (log_assigned _ _ _ _ _ _ _ Hrun Hl)
    as (d & s & _ & _ & Hi & Hsp & _).
  exists d, s. repeat split; try done.
  unfold taken_by. apply list_elem_of_omap.
  exists (JObj d, Some f). split.
  - apply list_elem_of_lookup. exists i. apply lookup_zip_with_Some.
    exists (JObj d), (Some f). done.
  - simpl. rewrite Hsp. by rewrite bool_decide_eq_true_2.
Qed.

(** Distinct places of a list give distinct elements of a duplicate-free
    [omap] of it. *)
Lemma NoDup_omap_lookup {A B} (h : A → option B) (l : list A) i j x y b :
  NoDup (omap h l) →
  l !! i = Some x → l !! j = Some y →
  h x = Some b → h y = Some b →
  i = j.
Proof.
  revert i j. induction l as [|a l IH]; intros i j Hnd Hi Hj Hx Hy; [done|].
  assert (∀ k z, l !! k = Some z → h z = Some b → b ∈ omap h l) as Hin.
  { intros k z Hk Hz. apply list_elem_of_omap. exists z. split; [|done].
    apply list_elem_of_lookup. eauto. }
  simpl in Hnd. destruct i as [|i], j as [|j]; simpl in Hi, Hj.
  - done.
  - injection Hi as ->. rewrite Hx in Hnd.
    apply NoDup_cons in Hnd as [Hnot _]. destruct Hnot. by eapply Hin.
  - injection Hj as ->. rewrite Hy in Hnd.
    apply NoDup_cons in Hnd as [Hnot _]. destruct Hnot. by eapply Hin.
  - f_equal. apply IH; try done.
    destruct (h a); [by apply NoDup_cons in Hnd as [_ ?] | done].
Qed.

(** ** Entries that are already correct *)

Lemma has_valid_audio_str d p :
  dict_get d "AudioPath" = Some (JStr p) →
  has_valid_audio fs d = Ok (negb (String.eqb p "") && fs_str_exists fs p).
Proof.
  intros Hp. unfold has_valid_audio. rewrite Hp. simpl.
  by destruct (String.eqb p "").
Qed.

Lemma valid_entry_kept inv dialogues out inv' log i d :
  repair_loop fs inv dialogues = Ok (out, inv', log) →
  dialogues !! i = Some (JObj d) →
  has_valid_audio fs d = Ok true →
  out !! i = Some (JObj d) ∧ log !! i = Some None.
Proof.
  intros Hrun Hi Hvalid.
  destruct (repair_loop_lookup _ _ _ _ _ _ _ Hrun Hi)
    as (inv_i & d' & inv_i' & t & _ & Hstep & Ho & Hl & _).
  apply repair_entry_Ok in Hstep as (d0 & [= <-] & Hcase).
  destruct Hcase as [| ? ? ? Hn | ? ? ? ? Hn]; try done;
    unfold needs_repair in Hn; congruence.
Qed.

(** ** Files given out in a run *)

Lemma pool_elem voices_dir inv s f :
  pools_ok voices_dir inv → f ∈ pool inv s →
  no_sep s = true ∧ NoDup (pool inv s) ∧ ∃ name, f = voices_dir /: s /: name.
Proof.
  intros Hok Hf. unfold pool in *.
  destruct (inv !! s) as [files|] eqn:Hs; simpl in *; [|by apply elem_of_nil in Hf].
  destruct (Hok _ _ Hs) as (? & ? & Hall). auto.
Qed.

Lemma taken_in_pool inv dialogues out inv' log s f :
  repair_loop fs inv dialogues = Ok (out, inv', log) →
  f ∈ taken_by s dialogues log → f ∈ pool inv s.
Proof.
  intros Hrun Hf. rewrite (pool_split _ _ _ _ _ s Hrun).
  apply elem_of_app. by left.
Qed.

(** ** Entries in need of a file *)

Lemma needs_repair_str d p :
  dict_get d "AudioPath" = Some (JStr p) →
  p = "" ∨ fs_str_exists fs p = false →
  needs_repair fs d.
Proof.
  intros Hp Hbad. unfold needs_repair. rewrite (has_valid_audio_str _ _ Hp).
  destruct Hbad as [-> | Hex]; [done|]. by rewrite Hex, andb_false_r.
Qed.

Lemma needs_repair_missing d :
  dict_get d "AudioPath" = None → needs_repair fs d.
Proof. intros Hp. unfold needs_repair, has_valid_audio. by rewrite Hp. Qed.

(** The iteration that gives a file. *)
Lemma repair_entry_assign inv d s f files :
  dict_get d "Speaker" = Some (JStr s) →
  needs_repair fs d →
  inv !! s = Some (f :: files) →
  is_Some (dict_get d "Id") →
  (∃ t, dict_get d "Text" = Some (JStr t)) →
  repair_entry fs inv (JObj d)
    = Ok (JObj (assign_audio d (path_str f)), <[s := files]> inv, Some f).
Proof.
  intros Hsp Hneed Hs [id Hid] [t Ht]. unfold repair_entry, dict_getitem.
  rewrite Hsp. cbn [rbind]. rewrite Hneed. cbn [rbind inventory_find].
  rewrite Hs. cbn [fmap option_fmap option_map rbind].
  rewrite Hid, Ht. cbn [rbind py_slice_ok].
  by rewrite py_list_remove_head.
Qed.

(** The iteration that finds no file. *)
Lemma repair_entry_skip inv d s :
  dict_get d "Speaker" = Some (JStr s) →
  needs_repair fs d →
  pool inv s = [] →
  repair_entry fs inv (JObj d) = Ok (JObj d, inv, None).
Proof.
  intros Hsp Hneed Hs. unfold repair_entry, dict_getitem.
  rewrite Hsp. cbn [rbind]. rewrite Hneed. cbn [rbind inventory_find].
  unfold pool in Hs. destruct (inv !! s) as [files|]; simpl in *; [|done].
  by rewrite Hs.
Qed.

Lemma repair_loop_app inv before after out_b inv_b log_b :
  repair_loop fs inv before = Ok (out_b, inv_b, log_b) →
  repair_loop fs inv (before ++ after) =
    let! (out, inv', log) := repair_loop fs inv_b after in
    Ok ((out_b ++ out)%list, inv', (log_b ++ log)%list).
Proof.
  revert inv out_b log_b.
  induction before as [|d before IH]; intros inv out_b log_b Hrun.
  - injection Hrun as <- <- <-. simpl.
    by destruct (repair_loop fs inv after) as [[[? ?] ?]|].
  - apply repair_loop_cons_Ok in Hrun
      as (d' & inv1 & t & out' & log' & Hstep & Hrest & -> & ->).
    change ((d :: before) ++ after)%list with (d :: (before ++ after))%list.
    cbn [repair_loop]. rewrite Hstep. cbn [rbind].
    rewrite (IH _ _ _ Hrest).
    by destruct (repair_loop fs inv_b after) as [[[? ?] ?]|].
Qed.

End Loop.

(** ** Every well-formed catalog is processed *)

Lemma repair_entry_total fs inv dialogue :
  entry_wf dialogue → ∃ r, repair_entry fs inv dialogue = Ok r.
Proof.
  destruct dialogue as [| | | | | |d]; try done.
  intros (Hid & [s Hsp] & Ht & Hp).
  destruct (has_valid_audio fs d) as [[|]|e] eqn:Hvalid.
  - eexists. unfold repair_entry, dict_getitem.
    rewrite Hsp. cbn [rbind]. by rewrite Hvalid.
  - destruct (inv !! s) as [[|f files]|] eqn:Hs.
    + eexists. apply (repair_entry_skip _ _ _ s); try done.
      unfold pool. by rewrite Hs.
    + eexists. by apply (repair_entry_assign _ _ _ s f files).
    + eexists. apply (repair_entry_skip _ _ _ s); try done.
      unfold pool. by rewrite Hs.
  - unfold has_valid_audio in Hvalid.
    destruct (dict_get d "AudioPath") as [v|] eqn:Hv; [|done].
    destruct (Hp v eq_refl) as [p ->]. simpl in Hvalid.
    by destruct (String.eqb p "").
Qed.

Lemma repair_loop_total fs inv dialogues :
  Forall entry_wf dialogues →
  ∃ out inv' log, repair_loop fs inv dialogues = Ok (out, inv', log).
Proof.
  intros Hwf. revert inv.
  induction Hwf as [|dialogue rest Hd _ IH]; intros inv.
  - by eexists _, _, _.
  - destruct (repair_entry_total fs inv dialogue Hd) as [[[d' inv1] t] Hstep].
    destruct (IH inv1) as (out & inv' & log & Hrest).
    eexists _, _, _. apply repair_loop_cons_Ok. naive_solver.
Qed.

Lemma run_at_list fs repo_root dialogues :
  fs_load_json fs (catalog_path repo_root) = Ok (JList dialogues) →
  run_at fs repo_root =
    let! inv := scan_inventory fs (voices_path repo_root) in
    let! (out, _, log) := repair_loop fs inv dialogues in
    Ok (JList out, log).
Proof.
  intros Hload. unfold run_at. rewrite Hload. cbn [rbind py_len_ok py_iter].
  destruct (scan_inventory fs (voices_path repo_root)) as [inv|e]; [|done].
  cbn [rbind]. by destruct (repair_loop fs inv dialogues) as [[[? ?] ?]|].
Qed.

(** The script runs to the end on a catalog of well-formed entries, once
    the catalog loads and the voices directory lists. *)
Lemma main_completes fs file dialogues names :
  fs_load_json fs (catalog_path (find_repo_root fs file)) = Ok (JList dialogues) →
  fs_listdir fs (voices_path (find_repo_root fs file)) = Ok names →
  Forall entry_wf dialogues →
  ∃ out log, main fs file = Ok (JList out, log) ∧ length out = length dialogues.
Proof.
  intros Hload Hnames Hwf. unfold main. rewrite (run_at_list _ _ _ Hload).
  unfold scan_inventory, iterdir. rewrite Hnames. cbn [rbind].
  destruct (repair_loop_total fs
              (foldl (scan_step fs) ∅
                 (joinpath (voices_path (find_repo_root fs file)) <$> names))
              dialogues Hwf) as (out & inv' & log & Hrun).
  rewrite Hrun. exists out, log. split; [done|]. by eapply repair_loop_length.
Qed.

(** A run of the script over a catalog that is a list is a scan followed
    by the loop over its entries. *)
Lemma main_Ok_list fs file dialogues written log :
  fs_load_json fs (catalog_path (find_repo_root fs file)) = Ok (JList dialogues) →
  main fs file = Ok (written, log) →
  ∃ inv out inv',
    scan_inventory fs (voices_path (find_repo_root fs file)) = Ok inv ∧
    repair_loop fs inv dialogues = Ok (out, inv', log) ∧
    written = JList out.
Proof.
  intros Hload. unfold main. rewrite (run_at_list _ _ _ Hload). intros H.
  inv_ok H. rename r into inv. inv_ok H. destruct r as [[out inv'] log'].
  injection H as <- <-. by exists inv, out, inv'.
Qed.

(** The count reported at line 81 is the number of files given out. *)
Lemma updates_made_taken fs inv dialogues out inv' log :
  repair_loop fs inv dialogues = Ok (out, inv', log) →
  updates_made log ≤ length dialogues.
Proof.
  intros Hrun. destruct (repair_loop_length _ _ _ _ _ _ Hrun) as [_ <-].
  unfold updates_made. apply length_filter.
Qed.

(** ** Malformed input *)

Example entry_without_speaker fs inv :
  repair_entry fs inv (JObj [("Id", JInt 1); ("Text", JStr "Hi")])
    = Raise (KeyError "Speaker").
Proof. reflexivity. Qed.

Example entry_not_an_object fs inv :
  repair_entry fs inv (JStr "Guard") = Raise TypeError.
Proof. reflexivity. Qed.

Example entry_with_unhashable_speaker fs inv :
  repair_entry fs inv (JObj [("Speaker", JList [JStr "Guard"])]) = Raise TypeError.
Proof. reflexivity. Qed.

Example entry_with_numeric_speaker fs inv :
  repair_entry fs inv (JObj [("Speaker", JInt 7)])
    = Ok (JObj [("Speaker", JInt 7)], inv, None).
Proof. reflexivity. Qed.

Example entry_with_null_path fs :
  has_valid_audio fs [("Speaker", JStr "Guard"); ("AudioPath", JNull)] = Ok false.
Proof. reflexivity. Qed.

Example entry_with_list_path fs :
  has_valid_audio fs [("AudioPath", JList [JStr "a.mp3"])] = Raise TypeError.
Proof. reflexivity. Qed.

Example entry_without_id :
  repair_entry Demo.fs Demo.inv0 (JObj [("Speaker", JStr "Guard"); ("Text", JStr "Hi")])
    = Raise (KeyError "Id").
Proof. vm_compute. reflexivity. Qed.

Example catalog_not_a_list fs repo_root :
  fs_load_json fs (catalog_path repo_root) = Ok (JInt 3) →
  run_at fs repo_root = Raise TypeError.
Proof. intros Hload. unfold run_at. by rewrite Hload. Qed.

(** ** The repository root *)

Lemma length_removelast_pred {A} (l : list A) :
  length (removelast l) = pred (length l).
Proof.
  induction l as [|x l IH]; [done|].
  destruct l as [|y l]; [done|].
  change (removelast (x :: y :: l)) with (x :: removelast (y :: l)).
  rewrite length_cons, IH. done.
Qed.

Lemma parent_fixed p : parent p = p ↔ parts p = [].
Proof.
  destruct p as [a l]. unfold parent. simpl. split.
  - intros [= H]. destruct l as [|x l]; [done|].
    apply (f_equal length) in H. rewrite length_removelast_pred in H.
    simpl in H. lia.
  - by intros ->.
Qed.

(** The fuel [find_repo_root] gives the walk is never used up. *)
Lemma walk_up_fuel fs fuel current :
  length (parts current) < fuel → walk_up fs fuel current ≠ OutOfFuel.
Proof.
  revert current. induction fuel as [|fuel IH]; intros current Hlen; [lia|].
  simpl. destruct (decide (parent current = current)) as [|Hne]; [done|].
  destruct (has_marker fs current); [done|].
  apply IH. unfold parent. simpl. rewrite length_removelast_pred.
  rewrite parent_fixed in Hne. destruct (parts current); [done | simpl in *; lia].
Qed.

Lemma walk_up_Found fs fuel current root :
  walk_up fs fuel current = Found root → has_marker fs root = true.
Proof.
  revert current. induction fuel as [|fuel IH]; intros current; [done|].
  simpl. destruct (decide (parent current = current)); [done|].
  destruct (has_marker fs current) eqn:Hm; [by intros [= <-] | apply IH].
Qed.

(** The root is a directory with a marker, or else the fallback. *)
Lemma find_repo_root_cases fs file :
  (has_marker fs (find_repo_root fs file) = true ∧ ¬ no_root_found fs file) ∨
  (no_root_found fs file ∧ find_repo_root fs file = parent (parent file)).
Proof.
  unfold find_repo_root, no_root_found. cbv zeta.
  pose proof (walk_up_fuel fs (S (length (parts (parent (parent file)))))
                (parent (parent file))) as Hfuel.
  destruct (walk_up _ _ _) as [root| |] eqn:Hwalk.
  - left. split; [by eapply walk_up_Found | done].
  - by right.
  - destruct Hfuel; [lia | done].
Qed.

(** The fallback of line 19. *)
Lemma find_repo_root_fallback fs file :
  no_root_found fs file → find_repo_root fs file = parent (parent file).
Proof.
  intros Hnone. destruct (find_repo_root_cases fs file) as [[_ ?]|[_ ?]]; done.
Qed.

(** ** Entries without an audio path *)

Lemma dict_set_set d k v v' : dict_set (dict_set d k v) k v' = dict_set d k v'.
Proof.
  induction d as [|[k0 v0] d IH]; simpl.
  - by rewrite decide_True.
  - destruct (decide (k0 = k)) as [->|Hne]; simpl.
    + by rewrite decide_True.
    + by rewrite decide_False, IH.
Qed.

Lemma assign_audio_set_path d v new_path :
  assign_audio (dict_set d "AudioPath" v) new_path = assign_audio d new_path.
Proof. unfold assign_audio. by rewrite dict_set_set. Qed.

(** ** The demonstration repository *)

Lemma demo_scan : scan_inventory Demo.fs Demo.voices = Ok Demo.inv0.
Proof. vm_compute. reflexivity. Qed.

Lemma demo_run :
  repair_loop Demo.fs Demo.inv0 Demo.catalog = Ok (Demo.out, Demo.inv_left, Demo.log).
Proof. vm_compute. reflexivity. Qed.

Lemma demo_main : main Demo.fs Demo.script = Ok (JList Demo.out, Demo.log).
Proof. vm_compute. reflexivity. Qed.

(** Two entries of one speaker without audio path and two files in the
    speaker's directory: the first entry gets the first file listed, the
    second the other, and the pool is empty afterwards. *)
Example two_guards :
  repair_loop Demo.fs Demo.inv0
    [Demo.entry 1 "Guard" "Halt!" ""; Demo.entry 5 "Guard" "Who goes there?" ""]
  = Ok ([Demo.ready 1 "Guard" "Halt!" "/repo/voices/Guard/a.mp3";
         Demo.ready 5 "Guard" "Who goes there?" "/repo/voices/Guard/b.mp3"],
        <["Guard" := []]> Demo.inv0,
        [Some (Demo.voices /: "Guard" /: "a.mp3");
         Some (Demo.voices /: "Guard" /: "b.mp3")]).
Proof. vm_compute. reflexivity. Qed.

(** * The claims of the specification *)

(** C1. An entry with a speaker, an identifier and a text, whose audio
    path is empty or names nothing that exists, and whose speaker has a file
    left in the inventory, is given the first file of the pool: the
    iteration returns the entry with the path of that file, the has-audio
    flag set and the two status fields at their ready values, and an
    inventory in which the pool of the speaker is the rest of the files; the
    loop goes on from there. *)
Theorem repair_assigns_first_file fs inv d s p f files :
  dict_get d "Speaker" = Some (JStr s) →
  dict_get d "AudioPath" = Some (JStr p) →
  p = "" ∨ fs_str_exists fs p = false →
  inv !! s = Some (f :: files) →
  is_Some (dict_get d "Id") →
  (∃ t, dict_get d "Text" = Some (JStr t)) →
  ∃ d',
    repair_entry fs inv (JObj d) = Ok (JObj d', <[s := files]> inv, Some f) ∧
    dict_get d' "AudioPath" = Some (JStr (path_str f)) ∧
    dict_get d' "HasAudio" = Some (JBool true) ∧
    dict_get d' "AudioStatus" = Some (JStr "✅ Ready") ∧
    dict_get d' "AudioStatusColor" = Some (JStr "Green") ∧
    pool (<[s := files]> inv) s = files ∧
    ∀ rest,
      repair_loop fs inv (JObj d :: rest) =
        let! (out, inv', log) := repair_loop fs (<[s := files]> inv) rest in
        Ok (JObj d' :: out, inv', Some f :: log).
Proof.
  intros Hsp Hp Hbad Hs Hid Ht.
  pose proof (needs_repair_str _ _ _ Hp Hbad) as Hneed.
  pose proof (repair_entry_assign _ _ _ _ _ _ Hsp Hneed Hs Hid Ht) as Hstep.
  exists (assign_audio d (path_str f)).
  destruct (assign_audio_get d (path_str f)) as (? & ? & ? & ?).
  repeat split; try done.
  - apply pool_insert_eq.
  - intros rest. cbn [repair_loop]. by rewrite Hstep.
Qed.

Lemma repair_assigns_first_file_witness :
  ∃ d',
    repair_entry Demo.fs Demo.inv0 (Demo.entry 1 "Guard" "Halt!" "")
      = Ok (JObj d', <["Guard" := [Demo.voices /: "Guard" /: "b.mp3"]]> Demo.inv0,
            Some (Demo.voices /: "Guard" /: "a.mp3")) ∧
    dict_get d' "AudioPath" = Some (JStr "/repo/voices/Guard/a.mp3") ∧
    dict_get d' "HasAudio" = Some (JBool true).
Proof.
  destruct (repair_assigns_first_file Demo.fs Demo.inv0
              [("Id", JInt 1); ("Speaker", JStr "Guard"); ("Text", JStr "Halt!");
               ("AudioPath", JStr ""); ("HasAudio", JBool false);
               ("AudioStatus", JStr "Missing"); ("AudioStatusColor", JStr "Red");
               ("Mood", JStr "stern")]
              "Guard" "" (Demo.voices /: "Guard" /: "a.mp3")
              [Demo.voices /: "Guard" /: "b.mp3"])
    as (d' & Hstep & Hpath & Hflag & _).
  - reflexivity.
  - reflexivity.
  - left. reflexivity.
  - vm_compute. reflexivity.
  - eexists. reflexivity.
  - eexists. reflexivity.
  - exists d'. split; [exact Hstep|]. split; [exact Hpath | exact Hflag].
Defined.

(** C2. An entry whose audio path is a non-empty string naming a file
    that exists is the same entry after the run, field for field and in the
    same order of fields, and no file is taken for it; a second run over
    the rewritten catalog, whatever inventory it lists, leaves it the same
    once more. *)
Theorem valid_entries_unchanged
    fs inv inv2 dialogues out inv' log out2 inv2' log2 i d p :
  repair_loop fs inv dialogues = Ok (out, inv', log) →
  repair_loop fs inv2 out = Ok (out2, inv2', log2) →
  dialogues !! i = Some (JObj d) →
  dict_get d "AudioPath" = Some (JStr p) →
  p ≠ "" →
  fs_str_exists fs p = true →
  (out !! i = Some (JObj d) ∧ log !! i = Some None) ∧
  (out2 !! i = Some (JObj d) ∧ log2 !! i = Some None).
Proof.
  intros Hrun Hrun2 Hi Hp Hne Hex.
  assert (has_valid_audio fs d = Ok true) as Hvalid.
  { rewrite (has_valid_audio_str _ _ _ Hp), Hex.
    apply String.eqb_neq in Hne. by rewrite Hne. }
  destruct (valid_entry_kept _ _ _ _ _ _ _ _ Hrun Hi Hvalid) as [Ho Hl].
  split; [done|]. by eapply valid_entry_kept.
Qed.

Lemma valid_entries_unchanged_witness :
  (Demo.out !! 1 = Some (Demo.entry 2 "Merchant" "Fine wares." "/repo/voices/Merchant/m.mp3")
   ∧ Demo.log !! 1 = Some None) ∧
  (Demo.out2 !! 1 = Some (Demo.entry 2 "Merchant" "Fine wares." "/repo/voices/Merchant/m.mp3")
   ∧ Demo.log2 !! 1 = Some None).
Proof.
  apply (valid_entries_unchanged Demo.fs Demo.inv0 Demo.inv0 Demo.catalog
           Demo.out Demo.inv_left Demo.log Demo.out2 Demo.inv_left2 Demo.log2
           1 _ "/repo/voices/Merchant/m.mp3").
  - vm_compute. reflexivity.
  - vm_compute. reflexivity.
  - reflexivity.
  - reflexivity.
  - discriminate.
  - vm_compute. reflexivity.
Defined.

(** C3, as amended. When the walk meets no marker, [find_repo_root]
    raises nothing: it returns the directory two levels above the script,
    and the script runs from there as from any root. It ends in an
    exception before any entry is looked at when the catalog does not load
    there or the voices directory does not list; when both succeed and the
    catalog is a list of well-formed entries, it repairs that catalog. *)
Theorem fallback_root_when_none_found fs file :
  no_root_found fs file →
  find_repo_root fs file = parent (parent file) ∧
  main fs file = run_at fs (parent (parent file)) ∧
  (∀ e, fs_load_json fs (catalog_path (parent (parent file))) = Raise e →
        main fs file = Raise e) ∧
  (∀ dialogues e,
     fs_load_json fs (catalog_path (parent (parent file))) = Ok dialogues →
     py_len_ok dialogues = Ok () →
     fs_listdir fs (voices_path (parent (parent file))) = Raise e →
     main fs file = Raise e) ∧
  (∀ dialogues names,
     fs_load_json fs (catalog_path (parent (parent file))) = Ok (JList dialogues) →
     fs_listdir fs (voices_path (parent (parent file))) = Ok names →
     Forall entry_wf dialogues →
     ∃ out log, main fs file = Ok (JList out, log) ∧ length out = length dialogues).
Proof.
  intros Hnone. pose proof (find_repo_root_fallback _ _ Hnone) as Hroot.
  split; [done|]. split; [unfold main; by rewrite Hroot|]. repeat split.
  - intros e Hload. unfold main, run_at. by rewrite Hroot, Hload.
  - intros dialogues e Hload Hlen Hlist. unfold main, run_at.
    rewrite Hroot, Hload. cbn [rbind]. rewrite Hlen. cbn [rbind].
    unfold scan_inventory, iterdir. by rewrite Hlist.
  - intros dialogues names Hload Hlist Hwf.
    apply (main_completes fs file dialogues names); by rewrite ?Hroot.
Qed.

Lemma fallback_root_when_none_found_witness :
  find_repo_root Demo.fs_unmarked Demo.script = Demo.repo ∧
  main Demo.fs_unmarked Demo.script = run_at Demo.fs_unmarked Demo.repo.
Proof.
  destruct (fallback_root_when_none_found Demo.fs_unmarked Demo.script)
    as (Hroot & Hmain & _).
  - vm_compute. reflexivity.
  - split; [exact Hroot | exact Hmain].
Defined.

(** C3, as stated, fails: in a tree without marker the script finds the
    catalog under the fallback directory and repairs it. *)
Lemma aborts_without_root_counterexample :
  ¬ aborts_without_root Demo.fs_unmarked Demo.script.
Proof.
  intros Habort. destruct Habort as [e He].
  - vm_compute. reflexivity.
  - assert (main Demo.fs_unmarked Demo.script = Ok (JList Demo.out, Demo.log)) as Hok.
    { vm_compute. reflexivity. }
    rewrite Hok in He. discriminate.
Qed.

(** C4. Two different entries that are given a file in one run are given
    different files, and the audio paths written into them are different
    strings. The voices tree is taken to list properly: distinct names
    without separator in each directory. *)
Theorem assigned_paths_distinct fs voices_dir inv dialogues out inv' log i j f g :
  voices_ok fs voices_dir →
  scan_inventory fs voices_dir = Ok inv →
  repair_loop fs inv dialogues = Ok (out, inv', log) →
  i ≠ j →
  log !! i = Some (Some f) →
  log !! j = Some (Some g) →
  ∃ di dj p q,
    out !! i = Some (JObj di) ∧ dict_get di "AudioPath" = Some (JStr p) ∧
    out !! j = Some (JObj dj) ∧ dict_get dj "AudioPath" = Some (JStr q) ∧
    p = path_str f ∧ q = path_str g ∧ f ≠ g ∧ p ≠ q.
Proof.
  intros Hvoices Hscan Hrun Hij Hi Hj.
  pose proof (scan_pools_ok _ _ _ Hvoices Hscan) as Hpools.
  destruct (log_assigned _ _ _ _ _ _ _ _ Hrun Hi) as (d1 & ? & ? & ? & _ & _ & _ & _ & _ & Ho1).
  destruct (log_assigned _ _ _ _ _ _ _ _ Hrun Hj) as (d2 & ? & ? & ? & _ & _ & _ & _ & _ & Ho2).
  destruct (taken_by_elem _ _ _ _ _ _ _ _ Hrun Hi) as (di & si & Hdi & Hsi & Hfi).
  destruct (taken_by_elem _ _ _ _ _ _ _ _ Hrun Hj) as (dj & sj & Hdj & Hsj & Hgj).
  destruct (pool_elem _ _ _ _ Hpools (taken_in_pool _ _ _ _ _ _ _ _ Hrun Hfi))
    as (Hsepi & Hnd & n & ->).
  destruct (pool_elem _ _ _ _ Hpools (taken_in_pool _ _ _ _ _ _ _ _ Hrun Hgj))
    as (Hsepj & _ & m & ->).
  eexists _, _, _, _. split; [exact Ho1|]. split; [apply assign_audio_get|].
  split; [exact Ho2|]. split; [apply assign_audio_get|].
  split; [done|]. split; [done|].
  assert (path_str (voices_dir /: si /: n) ≠ path_str (voices_dir /: sj /: m)) as Hne.
  { intros Heq. apply path_str_file_inj in Heq as [-> ->]; [|done..].
    rewrite (pool_split _ _ _ _ _ _ sj Hrun) in Hnd.
    apply NoDup_app in Hnd as [Hnd _].
    apply Hij. unfold taken_by in Hnd.
    eapply (NoDup_omap_lookup _ _ i j (JObj di, Some _) (JObj dj, Some _)); [exact Hnd | | | |].
    - apply lookup_zip_with_Some. eexists _, _. done.
    - apply lookup_zip_with_Some. eexists _, _. done.
    - simpl. rewrite Hsi. by rewrite bool_decide_eq_true_2.
    - simpl. rewrite Hsj. by rewrite bool_decide_eq_true_2. }
  split; [|done]. intros Heq. apply Hne. by rewrite Heq.
Qed.

Lemma assigned_paths_distinct_witness :
  ∃ di dj p q,
    Demo.out !! 0 = Some (JObj di) ∧ dict_get di "AudioPath" = Some (JStr p) ∧
    Demo.out !! 2 = Some (JObj dj) ∧ dict_get dj "AudioPath" = Some (JStr q) ∧
    p = "/repo/voices/Guard/a.mp3" ∧ q = "/repo/voices/Guard/b.mp3" ∧
    Demo.voices /: "Guard" /: "a.mp3" ≠ Demo.voices /: "Guard" /: "b.mp3" ∧ p ≠ q.
Proof.
  apply (assigned_paths_distinct Demo.fs Demo.voices Demo.inv0 Demo.catalog
           Demo.out Demo.inv_left Demo.log 0 2
           (Demo.voices /: "Guard" /: "a.mp3") (Demo.voices /: "Guard" /: "b.mp3")).
  - apply (bool_decide_unpack _). vm_compute. reflexivity.
  - vm_compute. reflexivity.
  - vm_compute. reflexivity.
  - lia.
  - reflexivity.
  - reflexivity.
Defined.

(** C5. An entry in need of a file whose speaker has no directory under
    the voices root, or a directory without audio files, or a pool the run
    has emptied, is left as it is, the inventory too, and nothing is raised:
    the loop goes on with the entries after it. *)
Theorem unresolvable_entry_skipped
    fs voices_dir inv0 before out_b inv log_b d s p :
  scan_inventory fs voices_dir = Ok inv0 →
  repair_loop fs inv0 before = Ok (out_b, inv, log_b) →
  dict_get d "Speaker" = Some (JStr s) →
  dict_get d "AudioPath" = Some (JStr p) →
  p = "" ∨ fs_str_exists fs p = false →
  no_file_for fs voices_dir inv s →
  repair_entry fs inv (JObj d) = Ok (JObj d, inv, None) ∧
  ∀ rest,
    repair_loop fs inv0 (before ++ JObj d :: rest) =
      let! (out, inv', log) := repair_loop fs inv rest in
      Ok ((out_b ++ JObj d :: out)%list, inv', (log_b ++ None :: log)%list).
Proof.
  intros Hscan Hrun Hsp Hp Hbad Hnone.
  pose proof (needs_repair_str _ _ _ Hp Hbad) as Hneed.
  assert (pool inv s = []) as Hempty.
  { assert (pool inv0 s = [] → pool inv s = []) as Hshrink.
    { rewrite (pool_split _ _ _ _ _ _ s Hrun). by intros [_ ?]%app_eq_nil. }
    destruct Hnone as [Hnone|[Hnone|[Hnone|Hnone]]]; [| | |done];
      apply Hshrink; unfold pool;
      destruct (inv0 !! s) as [files|] eqn:Hs; try done; simpl;
      destruct (scan_inventory_lookup _ _ _ _ _ Hscan Hs)
        as (names & Hnames & Hin & Hdir & _ & Hglob & Hne).
    - by destruct (Hnone _ Hnames).
    - congruence.
    - congruence. }
  pose proof (repair_entry_skip _ _ _ _ Hsp Hneed Hempty) as Hstep.
  split; [done|]. intros rest.
  rewrite (repair_loop_app _ _ _ _ _ _ _ Hrun).
  cbn [repair_loop]. rewrite Hstep. cbn [rbind].
  by destruct (repair_loop fs inv rest) as [[[? ?] ?]|].
Qed.

Lemma unresolvable_entry_skipped_witness :
  repair_entry Demo.fs (<["Guard" := []]> Demo.inv0) (Demo.entry 4 "Ghost" "Boo." "")
    = Ok (Demo.entry 4 "Ghost" "Boo." "", <["Guard" := []]> Demo.inv0, None) ∧
  repair_entry Demo.fs (<["Guard" := []]> Demo.inv0)
      (Demo.entry 5 "Guard" "Who goes there?" "")
    = Ok (Demo.entry 5 "Guard" "Who goes there?" "", <["Guard" := []]> Demo.inv0, None).
Proof.
  split.
  - apply (unresolvable_entry_skipped Demo.fs Demo.voices Demo.inv0
             (take 3 Demo.catalog) (take 3 Demo.out) _ (take 3 Demo.log) _ "Ghost" "").
    + vm_compute. reflexivity.
    + vm_compute. reflexivity.
    + reflexivity.
    + reflexivity.
    + left. reflexivity.
    + right. left. vm_compute. reflexivity.
  - apply (unresolvable_entry_skipped Demo.fs Demo.voices Demo.inv0
             (take 4 Demo.catalog) (take 4 Demo.out) _ (take 4 Demo.log) _ "Guard" "").
    + vm_compute. reflexivity.
    + vm_compute. reflexivity.
    + reflexivity.
    + reflexivity.
    + left. reflexivity.
    + right. right. right. vm_compute. reflexivity.
Defined.

(** C6. For every speaker, the entries given a file in one run are at
    most as many as the audio files the scan found in the speaker's
    directory, which are the files of the speaker's pool when the run
    starts. *)
Theorem assignments_bounded_by_files fs voices_dir inv dialogues out inv' log s :
  scan_inventory fs voices_dir = Ok inv →
  repair_loop fs inv dialogues = Ok (out, inv', log) →
  length (taken_by s dialogues log) ≤ length (pool inv s) ∧
  length (pool inv s) ≤ length (glob_mp3 fs (voices_dir /: s)).
Proof.
  intros Hscan Hrun. split.
  - rewrite (pool_split _ _ _ _ _ _ s Hrun), length_app. lia.
  - unfold pool. destruct (inv !! s) as [files|] eqn:Hs; simpl; [|lia].
    destruct (scan_inventory_lookup _ _ _ _ _ Hscan Hs)
      as (_ & _ & _ & _ & _ & -> & _). done.
Qed.

Lemma assignments_bounded_by_files_witness :
  length (taken_by "Guard" Demo.catalog Demo.log) ≤ length (pool Demo.inv0 "Guard") ∧
  length (pool Demo.inv0 "Guard")
    ≤ length (glob_mp3 Demo.fs (Demo.voices /: "Guard")).
Proof.
  apply (assignments_bounded_by_files Demo.fs Demo.voices Demo.inv0 Demo.catalog
           Demo.out Demo.inv_left Demo.log "Guard").
  - vm_compute. reflexivity.
  - vm_compute. reflexivity.
Defined.

(** C7. A file given to an entry is never one of the directory
    [previews] of the voices root: its parent is another directory, and,
    the voices root listing names without separator, the audio path written
    is the path of no file of [previews]. *)
Theorem previews_never_assigned fs voices_dir inv dialogues out inv' log i f :
  scan_inventory fs voices_dir = Ok inv →
  repair_loop fs inv dialogues = Ok (out, inv', log) →
  log !! i = Some (Some f) →
  parent f ≠ voices_dir /: "previews" ∧
  (∃ d', out !! i = Some (JObj d') ∧
         dict_get d' "AudioPath" = Some (JStr (path_str f))) ∧
  (listing_ok fs voices_dir →
   ∀ name, path_str f ≠ path_str (voices_dir /: "previews" /: name)).
Proof.
  intros Hscan Hrun Hi.
  destruct (log_assigned _ _ _ _ _ _ _ _ Hrun Hi)
    as (d1 & ? & ? & ? & _ & _ & _ & _ & _ & Ho).
  destruct (taken_by_elem _ _ _ _ _ _ _ _ Hrun Hi) as (d & s & _ & _ & Hf).
  apply (taken_in_pool _ _ _ _ _ _ _ _ Hrun) in Hf.
  unfold pool in Hf. destruct (inv !! s) as [files|] eqn:Hs; simpl in Hf;
    [|by apply elem_of_nil in Hf].
  destruct (scan_inventory_lookup _ _ _ _ _ Hscan Hs)
    as (names & Hnames & Hin & _ & Hprev & -> & _).
  apply glob_mp3_children in Hf as (n & -> & _).
  split; [|split].
  - rewrite parent_joinpath. by intros [_ ?]%joinpath_inj.
  - eexists. split; [exact Ho|]. apply assign_audio_get.
  - intros Htop name Heq. unfold listing_ok in Htop. rewrite Hnames in Htop.
    destruct Htop as [_ Hsep].
    apply path_str_file_inj in Heq as [? _]; [done | | done].
    by apply (proj1 (Forall_forall _ _) Hsep).
Qed.

Lemma previews_never_assigned_witness :
  parent (Demo.voices /: "Guard" /: "a.mp3") ≠ Demo.voices /: "previews" ∧
  "/repo/voices/Guard/a.mp3" ≠ path_str (Demo.voices /: "previews" /: "p.mp3").
Proof.
  destruct (previews_never_assigned Demo.fs Demo.voices Demo.inv0 Demo.catalog
              Demo.out Demo.inv_left Demo.log 0 (Demo.voices /: "Guard" /: "a.mp3"))
    as (Hparent & _ & Hstr).
  - vm_compute. reflexivity.
  - vm_compute. reflexivity.
  - reflexivity.
  - split; [exact Hparent|]. apply Hstr.
    apply (bool_decide_unpack _). vm_compute. reflexivity.
Defined.

(** C8. The run keeps the number and the order of the entries, and in
    every entry the items under keys other than the four it writes: the same
    keys with the same values in the same order. The keys an entry had stay
    where they were. *)
Theorem untouched_fields_preserved fs inv dialogues out inv' log :
  repair_loop fs inv dialogues = Ok (out, inv', log) →
  length out = length dialogues ∧
  ∀ i dialogue, dialogues !! i = Some dialogue →
    ∃ d d', dialogue = JObj d ∧ out !! i = Some (JObj d') ∧
      untouched_items d' = untouched_items d ∧
      (∀ k, k ∉ touched → dict_get d' k = dict_get d k) ∧
      (d.*1) `prefix_of` (d'.*1).
Proof.
  intros Hrun. split; [by eapply repair_loop_length|].
  intros i dialogue Hi.
  destruct (repair_loop_lookup _ _ _ _ _ _ _ _ Hrun Hi)
    as (inv_i & dialogue' & inv_i' & t & _ & Hstep & Ho & _ & _).
  apply repair_entry_Ok in Hstep as (d & -> & Hcase).
  destruct Hcase.
  - exists d, d. done.
  - exists d, d. done.
  - eexists d, _. split; [done|]. split; [exact Ho|].
    split; [apply assign_audio_untouched|].
    split; [intros k Hk; by apply assign_audio_other | apply assign_audio_keys_prefix].
Qed.

Lemma untouched_fields_preserved_witness :
  length Demo.out = length Demo.catalog ∧
  ∃ d d', Demo.catalog !! 0 = Some (JObj d) ∧ Demo.out !! 0 = Some (JObj d') ∧
    untouched_items d' = untouched_items d.
Proof.
  destruct (untouched_fields_preserved Demo.fs Demo.inv0 Demo.catalog
              Demo.out Demo.inv_left Demo.log) as [Hlen Hall].
  - vm_compute. reflexivity.
  - split; [exact Hlen|].
    destruct (Hall 0 (Demo.entry 1 "Guard" "Halt!" "") eq_refl)
      as (d & d' & Hd & Ho & Hsame & _).
    exists d, d'. split; [by rewrite <- Hd|]. split; [exact Ho | exact Hsame].
Defined.

(** C9. The scan lists every audio file of a speaker's directory,
    whatever the catalog refers to; and there is a repository in which,
    after one run, an entry left alone for its valid audio path and an entry
    the run repaired carry the same audio path. *)
Theorem repaired_entry_may_share_file :
  (∀ fs voices_dir inv s files,
     scan_inventory fs voices_dir = Ok inv → inv !! s = Some files →
     files = glob_mp3 fs (voices_dir /: s)) ∧
  ∃ fs file dialogues out log i j p,
    fs_load_json fs (catalog_path (find_repo_root fs file)) = Ok (JList dialogues) ∧
    main fs file = Ok (JList out, log) ∧
    i ≠ j ∧
    (∃ d, dialogues !! i = Some (JObj d) ∧ out !! i = Some (JObj d) ∧
          log !! i = Some None ∧
          dict_get d "AudioPath" = Some (JStr p) ∧
          p ≠ "" ∧ fs_str_exists fs p = true) ∧
    (∃ d' f, out !! j = Some (JObj d') ∧ log !! j = Some (Some f) ∧
          dict_get d' "AudioPath" = Some (JStr p) ∧ path_str f = p).
Proof.
  split.
  - intros fs voices_dir inv s files Hscan Hs.
    by destruct (scan_inventory_lookup _ _ _ _ _ Hscan Hs)
      as (_ & _ & _ & _ & _ & ? & _).
  - exists Demo.fs, Demo.script, Demo.catalog, Demo.out, Demo.log, 1, 5,
      "/repo/voices/Merchant/m.mp3".
    split; [vm_compute; reflexivity|].
    split; [exact demo_main|].
    split; [lia|]. split.
    + eexists. repeat split; try reflexivity. discriminate.
    + eexists _, _. repeat split; reflexivity.
Qed.

Lemma repaired_entry_may_share_file_witness :
  pool Demo.inv0 "Merchant" = glob_mp3 Demo.fs (Demo.voices /: "Merchant").
Proof.
  destruct repaired_entry_may_share_file as [Hscan _].
  apply (Hscan Demo.fs Demo.voices Demo.inv0 "Merchant").
  - vm_compute. reflexivity.
  - vm_compute. reflexivity.
Defined.

(** C10. For an entry without the audio-path field the lookup of line 52
    gives the empty string and raises nothing, and the entry is not skipped
    at line 55. The iteration does with it what it does with the same entry
    carrying an empty audio path: it raises the same exception, or leaves
    the entry and the inventory as they are, or gives the same file and
    yields the same entry and inventory. With a speaker that has a file
    left, an identifier and a text, the entry is given that file. *)
Theorem missing_audio_path_as_empty fs inv d :
  dict_get d "AudioPath" = None →
  has_valid_audio fs d = Ok false ∧
  has_valid_audio fs (dict_set d "AudioPath" (JStr "")) = Ok false ∧
  match repair_entry fs inv (JObj (dict_set d "AudioPath" (JStr ""))) with
  | Ok (dialogue', inv', Some f) =>
      repair_entry fs inv (JObj d) = Ok (dialogue', inv', Some f)
  | Ok (dialogue', inv', None) =>
      dialogue' = JObj (dict_set d "AudioPath" (JStr "")) ∧
      repair_entry fs inv (JObj d) = Ok (JObj d, inv', None)
  | Raise e => repair_entry fs inv (JObj d) = Raise e
  end ∧
  ∀ s f files,
    dict_get d "Speaker" = Some (JStr s) →
    inv !! s = Some (f :: files) →
    is_Some (dict_get d "Id") →
    (∃ t, dict_get d "Text" = Some (JStr t)) →
    repair_entry fs inv (JObj d)
      = Ok (JObj (assign_audio d (path_str f)), <[s := files]> inv, Some f).
Proof.
  intros Hp.
  assert (has_valid_audio fs d = Ok false) as Hneed
    by by apply needs_repair_missing.
  assert (has_valid_audio fs (dict_set d "AudioPath" (JStr "")) = Ok false) as Hneed'.
  { unfold has_valid_audio. by rewrite dict_get_set_eq. }
  split; [done|]. split; [done|]. split.
  - unfold repair_entry, dict_getitem.
    rewrite Hneed, Hneed', !(dict_get_set_ne d "AudioPath") by done.
    destruct (dict_get d "Speaker") as [speaker|]; cbn [rbind]; [|done].
    destruct (inventory_find inv speaker) as [[[s [|f files]]|]|e];
      cbn [rbind]; try done.
    destruct (dict_get d "Id"); cbn [rbind]; [|done].
    destruct (dict_get d "Text") as [text|]; cbn [rbind]; [|done].
    destruct (py_slice_ok text); cbn [rbind]; [|done].
    rewrite py_list_remove_head. cbn [rbind].
    by rewrite assign_audio_set_path.
  - intros s f files Hsp Hs Hid Ht. by apply repair_entry_assign.
Qed.

Lemma missing_audio_path_as_empty_witness :
  has_valid_audio Demo.fs
    [("Id", JInt 6); ("Speaker", JStr "Merchant"); ("Text", JStr "Come again.")]
    = Ok false ∧
  Demo.out !! 5 =
    Some (JObj (assign_audio
      [("Id", JInt 6); ("Speaker", JStr "Merchant"); ("Text", JStr "Come again.")]
      "/repo/voices/Merchant/m.mp3")).
Proof.
  destruct (missing_audio_path_as_empty Demo.fs Demo.inv0
              [("Id", JInt 6); ("Speaker", JStr "Merchant"); ("Text", JStr "Come again.")])
    as (Hneed & _ & _ & _).
  - reflexivity.
  - split; [exact Hneed | reflexivity].
Defined.

(** * Further properties of the script *)

(** ** The walk to the repository root *)

Lemma ancestor_succ k p : ancestor (S k) p = ancestor k (parent p).
Proof. unfold ancestor. apply Nat.iter_succ_r. Qed.

Lemma ancestor_top k p : parts p = [] → ancestor k p = p.
Proof.
  intros Htop. induction k as [|k IH]; [done|].
  unfold ancestor in *. simpl. rewrite IH. by apply parent_fixed.
Qed.

Lemma parent_parts_length p :
  parent p ≠ p → S (length (parts (parent p))) = length (parts p).
Proof.
  intros Hne. rewrite parent_fixed in Hne. unfold parent. simpl.
  rewrite length_removelast_pred. destruct (parts p); [done | simpl; lia].
Qed.

Lemma ancestor_parts_length k p :
  length (parts (ancestor k p)) = length (parts p) - k.
Proof.
  revert p. induction k as [|k IH]; intros p.
  - unfold ancestor. simpl. lia.
  - rewrite ancestor_succ, IH. unfold parent. simpl.
    rewrite length_removelast_pred. lia.
Qed.

(** A walk that finds a root stops at the first marked directory on its
    way up, and never at the top. *)
Lemma walk_up_Found_nearest fs fuel current root :
  walk_up fs fuel current = Found root →
  ∃ k, root = ancestor k current ∧ has_marker fs root = true ∧
       parts root ≠ [] ∧
       ∀ j, j < k → has_marker fs (ancestor j current) = false.
Proof.
  revert current. induction fuel as [|fuel IH]; intros current; [done|].
  simpl. destruct (decide (parent current = current)) as [|Hne]; [done|].
  destruct (has_marker fs current) eqn:Hm.
  - intros [= <-]. exists 0. repeat split; try done.
    + by rewrite <- parent_fixed.
    + lia.
  - intros (k & -> & Hk & Htop & Hbelow)%IH. exists (S k).
    rewrite ancestor_succ. repeat split; try done.
    intros [|j] Hj; [done|]. rewrite ancestor_succ. apply Hbelow. lia.
Qed.

(** With fuel for every component, a marked directory on the way up is
    found. *)
Lemma walk_up_finds fs k fuel current :
  length (parts current) < fuel →
  has_marker fs (ancestor k current) = true →
  parts (ancestor k current) ≠ [] →
  ∃ root, walk_up fs fuel current = Found root.
Proof.
  revert fuel current. induction k as [|k IH]; intros [|fuel] current Hlen Hm Htop;
    try lia; simpl.
  - destruct (decide (parent current = current)) as [Hfix|_].
    + by apply parent_fixed in Hfix.
    + unfold ancestor in Hm. simpl in Hm. rewrite Hm. eauto.
  - destruct (decide (parent current = current)) as [Hfix|Hne].
    + apply parent_fixed in Hfix. by rewrite ancestor_top in Htop.
    + destruct (has_marker fs current); [eauto|].
      rewrite ancestor_succ in Hm, Htop.
      pose proof (parent_parts_length _ Hne). apply IH; [lia | done | done].
Qed.

Lemma walk_up_more_fuel fs fuel fuel' current :
  length (parts current) < fuel → length (parts current) < fuel' →
  walk_up fs fuel current = walk_up fs fuel' current.
Proof.
  revert fuel' current. induction fuel as [|fuel IH];
    intros [|fuel'] current Hlen Hlen'; try lia.
  simpl. destruct (decide (parent current = current)) as [|Hne]; [done|].
  destruct (has_marker fs current); [done|].
  pose proof (parent_parts_length _ Hne). apply IH; lia.
Qed.

(** X1. When a directory at or above the one two levels over the script,
    other than the top, holds a marker, [find_repo_root] returns the
    nearest such directory: it is marked, it is not the top, and no
    directory between it and the start is marked. *)
Theorem find_repo_root_nearest fs file k :
  has_marker fs (ancestor k (parent (parent file))) = true →
  parts (ancestor k (parent (parent file))) ≠ [] →
  ∃ k0, k0 ≤ k ∧
    find_repo_root fs file = ancestor k0 (parent (parent file)) ∧
    has_marker fs (find_repo_root fs file) = true ∧
    parts (find_repo_root fs file) ≠ [] ∧
    ∀ j, j < k0 → has_marker fs (ancestor j (parent (parent file))) = false.
Proof.
  intros Hm Htop. set (start := parent (parent file)) in *.
  destruct (walk_up_finds fs k (S (length (parts start))) start) as [root Hwalk];
    [lia | done | done |].
  destruct (walk_up_Found_nearest _ _ _ _ Hwalk) as (k0 & -> & Hm0 & Htop0 & Hbelow).
  assert (find_repo_root fs file = ancestor k0 start) as Hroot.
  { unfold find_repo_root. fold start. by rewrite Hwalk. }
  exists k0. rewrite Hroot. repeat split; try done.
  destruct (decide (k0 ≤ k)) as [|Hgt]; [done|].
  rewrite Hbelow in Hm; [done | lia].
Qed.

Lemma find_repo_root_nearest_witness :
  ∃ k0, k0 ≤ 3 ∧
    find_repo_root Deep.fs Deep.script = ancestor k0 (parent (parent Deep.script)) ∧
    has_marker Deep.fs (find_repo_root Deep.fs Deep.script) = true ∧
    parts (find_repo_root Deep.fs Deep.script) ≠ [] ∧
    ∀ j, j < k0 →
      has_marker Deep.fs (ancestor j (parent (parent Deep.script))) = false.
Proof.
  apply (find_repo_root_nearest Deep.fs Deep.script 3).
  - vm_compute. reflexivity.
  - discriminate.
Defined.

Example deep_root : find_repo_root Deep.fs Deep.script = Deep.project.
Proof. vm_compute. reflexivity. Qed.

(** X2. The top directory is never taken for the root: when no directory
    below the top is marked, [find_repo_root] returns the directory two
    levels over the script, whatever the top directory holds. *)
Theorem top_directory_never_root fs file :
  (∀ p, parts p ≠ [] → has_marker fs p = false) →
  find_repo_root fs file = parent (parent file) ∧ no_root_found fs file.
Proof.
  intros Hnone.
  destruct (find_repo_root_cases fs file) as [[_ Hfound]|[Hnot Hroot]]; [|done].
  destruct Hfound. unfold no_root_found. cbv zeta.
  pose proof (walk_up_fuel fs (S (length (parts (parent (parent file)))))
                (parent (parent file)) ltac:(lia)) as Hfuel.
  destruct (walk_up _ _ _) as [root| |] eqn:Hwalk; [|done|done].
  destruct (walk_up_Found_nearest _ _ _ _ Hwalk) as (k & _ & Hm & Htop & _).
  by rewrite (Hnone _ Htop) in Hm.
Qed.

Lemma top_directory_never_root_witness :
  has_marker Deep.fs_top_marked Deep.top = true ∧
  find_repo_root Deep.fs_top_marked Deep.script = Deep.project /: "tools".
Proof.
  split; [reflexivity|].
  apply (top_directory_never_root Deep.fs_top_marked Deep.script).
  intros [a [|x l]] Hp; [done|]. unfold has_marker, joinpath. simpl.
  rewrite !bool_decide_eq_false_2; [done | |];
    intros Hin; repeat (apply elem_of_cons in Hin as [Hin|Hin]; [by destruct l|]);
    by apply elem_of_nil in Hin.
Defined.

(** X3. The root is always a directory at or above the one two levels
    over the script, on the same anchor, at most as many levels up as that
    directory has components. *)
Theorem find_repo_root_above_script fs file :
  ∃ k, k ≤ length (parts (parent (parent file))) ∧
    find_repo_root fs file = ancestor k (parent (parent file)) ∧
    anchor (find_repo_root fs file) = anchor file ∧
    parts (find_repo_root fs file) `prefix_of` parts file.
Proof.
  assert (∀ k p, anchor (ancestor k p) = anchor p ∧
                 parts (ancestor k p) `prefix_of` parts p) as Hanc.
  { intros k. induction k as [|k IH]; intros p; [done|].
    rewrite ancestor_succ. destruct (IH (parent p)) as [-> Hpre].
    split; [done|]. etrans; [exact Hpre|]. unfold parent. simpl.
    destruct (parts p) as [|x l] using rev_ind; [done|].
    rewrite removelast_last. by apply prefix_app_r. }
  assert (∃ k, k ≤ length (parts (parent (parent file))) ∧
               find_repo_root fs file = ancestor k (parent (parent file)))
    as (k & Hk & Hroot).
  { unfold find_repo_root. cbv zeta.
    destruct (walk_up _ _ _) as [root| |] eqn:Hwalk;
      [|by exists 0; split; [lia|]..].
    destruct (walk_up_Found_nearest _ _ _ _ Hwalk) as (k & -> & _ & Htop & _).
    exists k. split; [|done].
    destruct (decide (k ≤ length (parts (parent (parent file))))) as [|Hgt]; [done|].
    destruct Htop. apply length_zero_iff_nil.
    rewrite ancestor_parts_length. lia. }
  exists k. rewrite Hroot. split; [done|]. split; [done|].
  destruct (Hanc k (parent (parent file))) as [-> Hpre].
  destruct (Hanc 2 file) as [Ha Hp]. split; [exact Ha|].
  etrans; [exact Hpre | exact Hp].
Qed.

(** X4. The loop of [find_repo_root] ends: as many iterations as the
    start has components, and one more to see the top, always suffice, and
    no further iteration changes what it finds. *)
Theorem find_repo_root_walk_ends fs file fuel :
  length (parts (parent (parent file))) < fuel →
  walk_up fs fuel (parent (parent file)) ≠ OutOfFuel ∧
  find_repo_root fs file =
    match walk_up fs fuel (parent (parent file)) with
    | Found root => root
    | _ => parent (parent file)
    end.
Proof.
  intros Hfuel. split; [by apply walk_up_fuel|].
  unfold find_repo_root. cbv zeta.
  by rewrite (walk_up_more_fuel fs _ fuel) by lia.
Qed.

Lemma find_repo_root_walk_ends_witness :
  walk_up Deep.fs 100 (parent (parent Deep.script)) = Found Deep.project.
Proof.
  destruct (find_repo_root_walk_ends Deep.fs Deep.script 100) as [_ Hroot].
  - vm_compute. lia.
  - vm_compute. reflexivity.
Defined.

(** ** Names that match [*.mp3] *)

Lemma substring_all s : String.substring 0 (String.length s) s = s.
Proof. induction s as [|c s IH]; simpl; [done | by rewrite IH]. Qed.

Lemma substring_drop s k :
  k ≤ String.length s →
  ∃ pre, s = pre +:+ String.substring k (String.length s - k) s.
Proof.
  revert k. induction s as [|c s IH]; intros [|k] Hk; simpl in Hk; try lia.
  - by exists "".
  - exists "". rewrite string_app_nil, Nat.sub_0_r. by rewrite substring_all.
  - destruct (IH k ltac:(lia)) as [pre Hpre]. exists (String c pre).
    rewrite string_app_cons. simpl. by rewrite <- Hpre.
Qed.

Lemma string_length_app (a b : string) :
  String.length (a +:+ b) = String.length a + String.length b.
Proof.
  induction a as [|c a IH]; [done|].
  rewrite string_app_cons. simpl. by rewrite IH.
Qed.

Lemma substring_app_r (a b : string) :
  String.substring (String.length a) (String.length b) (a +:+ b) = b.
Proof.
  induction a as [|c a IH].
  - rewrite string_app_nil. apply substring_all.
  - rewrite string_app_cons. simpl. exact IH.
Qed.

(** [ends_with] is what its name says. *)
Lemma ends_with_app suffix s :
  ends_with suffix s = true ↔ ∃ pre, s = pre +:+ suffix.
Proof.
  unfold ends_with. cbv zeta. split.
  - intros [Hlen Heq]%andb_prop. apply Nat.leb_le in Hlen.
    apply String.eqb_eq in Heq.
    destruct (substring_drop s (String.length s - String.length suffix))
      as [pre Hpre]; [lia|].
    exists pre.
    replace (String.length s - (String.length s - String.length suffix))
      with (String.length suffix) in Hpre by lia.
    by rewrite Heq in Hpre.
  - intros [pre ->]. rewrite string_length_app. apply andb_true_intro. split.
    + apply Nat.leb_le. lia.
    + apply String.eqb_eq.
      replace (String.length pre + String.length suffix - String.length suffix)
        with (String.length pre) by lia.
      apply substring_app_r.
Qed.

(** ** The scan, in full *)

Lemma scan_foldl_complete fs voices_dir names inv s :
  fs_is_dir fs (voices_dir /: s) = true →
  s ≠ "previews" →
  glob_mp3 fs (voices_dir /: s) ≠ [] →
  inv !! s = Some (glob_mp3 fs (voices_dir /: s)) ∨ s ∈ names →
  foldl (scan_step fs) inv (joinpath voices_dir <$> names) !! s
    = Some (glob_mp3 fs (voices_dir /: s)).
Proof.
  intros Hdir Hprev Hglob. revert inv.
  induction names as [|name names IH]; intros inv Hs; simpl.
  - destruct Hs as [|Hin]; [done | by apply elem_of_nil in Hin].
  - apply IH. unfold scan_step. rewrite path_name_joinpath.
    destruct (decide (name = s)) as [->|Hne].
    + left. rewrite Hdir. apply String.eqb_neq in Hprev. rewrite Hprev. simpl.
      destruct (glob_mp3 fs (voices_dir /: s)) eqn:E; [done|].
      by rewrite lookup_insert_eq.
    + destruct Hs as [Hs|Hin].
      * left. destruct (_ && _); [|done].
        destruct (glob_mp3 fs (voices_dir /: name)); [done|].
        by rewrite lookup_insert_ne.
      * right. apply elem_of_cons in Hin as [|]; [congruence | done].
Qed.

(** X5. The scan gives a speaker a pool exactly when the voices
    directory lists the speaker's name, the name is a directory other than
    [previews], and the directory holds a file matching [*.mp3]; the pool
    is then all the matching files, in listing order. In particular no pool
    is empty after the scan. *)
Theorem scan_inventory_exact fs voices_dir inv :
  scan_inventory fs voices_dir = Ok inv →
  ∃ names, fs_listdir fs voices_dir = Ok names ∧
    ∀ s files,
      inv !! s = Some files ↔
      s ∈ names ∧ fs_is_dir fs (voices_dir /: s) = true ∧ s ≠ "previews" ∧
      files = glob_mp3 fs (voices_dir /: s) ∧ files ≠ [].
Proof.
  intros Hscan. pose proof Hscan as Hscan'.
  unfold scan_inventory, iterdir in Hscan.
  destruct (fs_listdir fs voices_dir) as [names|e] eqn:Hnames; [|done].
  cbn [rbind] in Hscan. injection Hscan as <-.
  exists names. split; [done|]. intros s files. split.
  - intros Hs.
    destruct (scan_inventory_lookup _ _ _ _ _ Hscan' Hs)
      as (names' & Hnames' & ? & ? & ? & ? & ?).
    rewrite Hnames in Hnames'. injection Hnames' as <-. done.
  - intros (Hin & Hdir & Hprev & -> & Hne).
    apply scan_foldl_complete; auto.
Qed.

Lemma scan_inventory_exact_witness :
  ∃ names, fs_listdir Demo.fs Demo.voices = Ok names ∧
    ∀ s files,
      Demo.inv0 !! s = Some files ↔
      s ∈ names ∧ fs_is_dir Demo.fs (Demo.voices /: s) = true ∧ s ≠ "previews" ∧
      files = glob_mp3 Demo.fs (Demo.voices /: s) ∧ files ≠ [].
Proof.
  apply (scan_inventory_exact Demo.fs Demo.voices Demo.inv0).
  vm_compute. reflexivity.
Defined.

(** ** More on the loop *)

Section LoopMore.

Context (fs : FileSystem).

Lemma repair_loop_split inv before after out inv' log :
  repair_loop fs inv (before ++ after) = Ok (out, inv', log) →
  ∃ out_b inv_b log_b out_a log_a,
    repair_loop fs inv before = Ok (out_b, inv_b, log_b) ∧
    repair_loop fs inv_b after = Ok (out_a, inv', log_a) ∧
    out = (out_b ++ out_a)%list ∧ log = (log_b ++ log_a)%list ∧
    length out_b = length before ∧ length log_b = length before.
Proof.
  revert inv out log. induction before as [|d before IH]; intros inv out log Hrun.
  - exists [], inv, [], out, log. done.
  - change ((d :: before) ++ after)%list with (d :: (before ++ after))%list in Hrun.
    apply repair_loop_cons_Ok in Hrun
      as (d' & inv1 & t & out' & log' & Hstep & Hrest & -> & ->).
    destruct (IH _ _ _ Hrest)
      as (out_b & inv_b & log_b & out_a & log_a & Hb & Ha & -> & -> & Hlo & Hll).
    exists (d' :: out_b), inv_b, (t :: log_b), out_a, log_a.
    repeat split; try done; try (simpl; congruence).
    apply repair_loop_cons_Ok. naive_solver.
Qed.

(** The run after the entry at index [i]. *)
Lemma repair_loop_after inv dialogues out inv' log i dialogue :
  repair_loop fs inv dialogues = Ok (out, inv', log) →
  dialogues !! i = Some dialogue →
  ∃ inv_i dialogue' inv_i' taken out_a log_a,
    repair_loop fs inv (take i dialogues) = Ok (take i out, inv_i, take i log) ∧
    repair_entry fs inv_i dialogue = Ok (dialogue', inv_i', taken) ∧
    out !! i = Some dialogue' ∧ log !! i = Some taken ∧
    repair_loop fs inv_i' (drop (S i) dialogues) = Ok (out_a, inv', log_a).
Proof.
  intros Hrun Hi.
  destruct (repair_loop_lookup _ _ _ _ _ _ _ _ Hrun Hi)
    as (inv_i & d' & inv_i' & t & Hpre & Hstep & Ho & Hl & Hpost).
  rewrite <- (take_drop (S i) dialogues) in Hrun.
  destruct (repair_loop_split _ _ _ _ _ _ Hrun)
    as (out_b & inv_b & log_b & out_a & log_a & Hb & Ha & _).
  rewrite Hpost in Hb. injection Hb as _ <- _.
  exists inv_i, d', inv_i', t, out_a, log_a. done.
Qed.

Lemma pool_of_scan voices_dir inv s :
  scan_inventory fs voices_dir = Ok inv →
  pool inv s = [] ∨ pool inv s = glob_mp3 fs (voices_dir /: s).
Proof.
  intros Hscan. unfold pool. destruct (inv !! s) as [files|] eqn:Hs; [|by left].
  right. simpl.
  by destruct (scan_inventory_lookup _ _ _ _ _ Hscan Hs) as (_ & _ & _ & _ & _ & ? & _).
Qed.

End LoopMore.

(** X6. A file given to an entry is one the scan listed in the directory
    named after the entry's speaker, its name ends in [.mp3], and the audio
    path written is the voices directory, the speaker, and that name, joined
    by separators. *)
Theorem assigned_file_of_speaker fs voices_dir inv dialogues out inv' log i f :
  scan_inventory fs voices_dir = Ok inv →
  repair_loop fs inv dialogues = Ok (out, inv', log) →
  log !! i = Some (Some f) →
  ∃ d s stem,
    dialogues !! i = Some (JObj d) ∧
    dict_get d "Speaker" = Some (JStr s) ∧
    f = voices_dir /: s /: (stem +:+ ".mp3") ∧
    f ∈ glob_mp3 fs (voices_dir /: s) ∧
    ∃ d', out !! i = Some (JObj d') ∧
      dict_get d' "AudioPath"
        = Some (JStr (path_prefix voices_dir +:+ s +:+ "/" +:+ stem +:+ ".mp3")).
Proof.
  intros Hscan Hrun Hi.
  destruct (log_assigned _ _ _ _ _ _ _ _ Hrun Hi)
    as (d1 & ? & ? & ? & Hd1 & _ & _ & _ & _ & Ho).
  destruct (taken_by_elem _ _ _ _ _ _ _ _ Hrun Hi) as (d & s & Hd & Hsp & Hf).
  rewrite Hd in Hd1. injection Hd1 as <-.
  apply (taken_in_pool _ _ _ _ _ _ _ _ Hrun) in Hf.
  destruct (pool_of_scan _ _ _ s Hscan) as [Hnil|Hglob].
  { rewrite Hnil in Hf. by apply elem_of_nil in Hf. }
  rewrite Hglob in Hf. pose proof Hf as Hin.
  apply glob_mp3_children in Hf as (name & -> & Hmp3).
  apply ends_with_app in Hmp3 as [stem ->].
  exists d, s, stem. repeat split; try done.
  eexists. split; [exact Ho|].
  destruct (assign_audio_get d (path_str (voices_dir /: s /: (stem +:+ ".mp3"))))
    as [-> _].
  by rewrite path_str_file.
Qed.

Lemma assigned_file_of_speaker_witness :
  ∃ d s stem,
    Demo.catalog !! 2 = Some (JObj d) ∧
    dict_get d "Speaker" = Some (JStr s) ∧
    Demo.voices /: "Guard" /: "b.mp3" = Demo.voices /: s /: (stem +:+ ".mp3") ∧
    Demo.voices /: "Guard" /: "b.mp3" ∈ glob_mp3 Demo.fs (Demo.voices /: s) ∧
    ∃ d', Demo.out !! 2 = Some (JObj d') ∧
      dict_get d' "AudioPath"
        = Some (JStr (path_prefix Demo.voices +:+ s +:+ "/" +:+ stem +:+ ".mp3")).
Proof.
  apply (assigned_file_of_speaker Demo.fs Demo.voices Demo.inv0 Demo.catalog
           Demo.out Demo.inv_left Demo.log 2).
  - vm_compute. reflexivity.
  - vm_compute. reflexivity.
  - reflexivity.
Defined.

(** X7. The entries of a speaker are served in listing order: the files
    given to them, in catalog order, are the first files the speaker's
    directory lists among those matching [*.mp3]. *)
Theorem files_taken_in_listing_order fs voices_dir inv dialogues out inv' log s :
  scan_inventory fs voices_dir = Ok inv →
  repair_loop fs inv dialogues = Ok (out, inv', log) →
  taken_by s dialogues log
    = take (length (taken_by s dialogues log)) (glob_mp3 fs (voices_dir /: s)).
Proof.
  intros Hscan Hrun. pose proof (pool_split _ _ _ _ _ _ s Hrun) as Hsplit.
  destruct (pool_of_scan _ _ _ s Hscan) as [Hnil|Hglob].
  - rewrite Hnil in Hsplit. symmetry in Hsplit.
    apply app_eq_nil in Hsplit as [-> _]. done.
  - rewrite <- Hglob, Hsplit. by rewrite take_app_length.
Qed.

Lemma files_taken_in_listing_order_witness :
  taken_by "Guard" Demo.catalog Demo.log
    = take (length (taken_by "Guard" Demo.catalog Demo.log))
        (glob_mp3 Demo.fs (Demo.voices /: "Guard")).
Proof.
  apply (files_taken_in_listing_order Demo.fs Demo.voices Demo.inv0 Demo.catalog
           Demo.out Demo.inv_left Demo.log "Guard").
  - vm_compute. reflexivity.
  - vm_compute. reflexivity.
Defined.

(** X8. No file stays unused while an entry of its speaker goes without:
    when an entry that is not skipped as correct is given no file, the pool
    of its speaker is empty at the end of the run. *)
Theorem no_file_left_while_entry_waits fs inv dialogues out inv' log i d s :
  repair_loop fs inv dialogues = Ok (out, inv', log) →
  dialogues !! i = Some (JObj d) →
  dict_get d "Speaker" = Some (JStr s) →
  needs_repair fs d →
  log !! i = Some None →
  pool inv' s = [].
Proof.
  intros Hrun Hi Hsp Hneed Hl.
  destruct (repair_loop_after _ _ _ _ _ _ _ _ Hrun Hi)
    as (inv_i & d' & inv_i' & t & out_a & log_a & _ & Hstep & _ & Hl' & Hafter).
  rewrite Hl in Hl'.
  apply repair_entry_Ok in Hstep as (d0 & [= <-] & Hcase).
  assert (pool inv_i' s = []) as Hempty.
  { destruct Hcase as [_ Hvalid|speaker found Hsp' _ Hfind Hfound|]; [| |done].
    - unfold needs_repair in Hneed. congruence.
    - rewrite Hsp in Hsp'. injection Hsp' as <-.
      simpl in Hfind. injection Hfind as <-. unfold pool.
      destruct (inv_i !! s) as [files|]; simpl in *; [|done].
      destruct Hfound as [|[s' [= _ ->]]]; done. }
  pose proof (pool_split _ _ _ _ _ _ s Hafter) as Hsplit.
  rewrite Hempty in Hsplit. symmetry in Hsplit.
  by apply app_eq_nil in Hsplit as [_ ?].
Qed.

Lemma no_file_left_while_entry_waits_witness : pool Demo.inv_left "Guard" = [].
Proof.
  apply (no_file_left_while_entry_waits Demo.fs Demo.inv0 Demo.catalog
           Demo.out Demo.inv_left Demo.log 4
           [("Id", JInt 5); ("Speaker", JStr "Guard"); ("Text", JStr "Who goes there?");
            ("AudioPath", JStr ""); ("HasAudio", JBool false);
            ("AudioStatus", JStr "Missing"); ("AudioStatusColor", JStr "Red");
            ("Mood", JStr "stern")]).
  - vm_compute. reflexivity.
  - reflexivity.
  - reflexivity.
  - reflexivity.
  - reflexivity.
Defined.

Lemma wants_file_cons fs s dialogue rest :
  length (filter (λ v, wants_file fs s v = true) (dialogue :: rest))
  = (if wants_file fs s dialogue then 1 else 0)
    + length (filter (λ v, wants_file fs s v = true) rest).
Proof.
  rewrite filter_cons. destruct (wants_file fs s dialogue) eqn:E.
  - by rewrite decide_True.
  - by rewrite decide_False.
Qed.

(** X9. The entries of a speaker given a file in a run are exactly as
    many as the smaller of two numbers: the files of the speaker's pool
    when the run starts, and the speaker's entries that are not skipped as
    correct. *)
Theorem taken_count_exact fs inv dialogues out inv' log s :
  repair_loop fs inv dialogues = Ok (out, inv', log) →
  length (taken_by s dialogues log)
  = length (pool inv s)
    `min` length (filter (λ v, wants_file fs s v = true) dialogues).
Proof.
  revert inv out log.
  induction dialogues as [|dialogue rest IH]; intros inv out log Hrun.
  - injection Hrun as <- <- <-. simpl. lia.
  - apply repair_loop_cons_Ok in Hrun
      as (dialogue' & inv1 & taken & out' & log' & Hstep & Hrest & -> & ->).
    apply IH in Hrest. rewrite taken_by_cons, wants_file_cons.
    apply repair_entry_Ok in Hstep as (d & -> & Hcase).
    assert (wants_file fs s (JObj d)
            = entry_speaker_is s (JObj d) &&
              match has_valid_audio fs d with Ok false => true | _ => false end)
      as -> by done.
    destruct Hcase as [_ Hvalid|speaker found Hsp Hneed Hfind Hfound
                      |s0 f files Hsp Hneed Hpool _ _].
    + rewrite Hvalid, andb_false_r.
      by destruct (entry_speaker_is s (JObj d)).
    + unfold needs_repair in Hneed. rewrite Hneed, andb_true_r.
      destruct (entry_speaker_is s (JObj d)) eqn:Hspeaker; [|done].
      simpl in Hspeaker. rewrite Hsp in Hspeaker.
      destruct speaker as [| | | |s'| |]; try done.
      apply bool_decide_eq_true in Hspeaker as ->.
      simpl in Hfind. injection Hfind as <-.
      assert (pool inv s = []) as Hempty.
      { unfold pool. destruct (inv !! s) as [l|]; simpl in *; [|done].
        destruct Hfound as [|[s' [= _ ->]]]; done. }
      cbn [Nat.add]. rewrite Hrest, Hempty. simpl. lia.
    + unfold needs_repair in Hneed. rewrite Hneed, andb_true_r.
      simpl. rewrite Hsp. destruct (decide (s0 = s)) as [->|Hne].
      * rewrite bool_decide_eq_true_2 by done.
        rewrite pool_insert_eq in Hrest. unfold pool at 1. rewrite Hpool.
        simpl. rewrite Hrest. lia.
      * rewrite bool_decide_eq_false_2 by done.
        by rewrite pool_insert_ne in Hrest.
Qed.

Lemma taken_count_exact_witness :
  length (taken_by "Guard" Demo.catalog Demo.log)
  = length (pool Demo.inv0 "Guard")
    `min` length (filter (λ v, wants_file Demo.fs "Guard" v = true) Demo.catalog).
Proof.
  apply (taken_count_exact Demo.fs Demo.inv0 Demo.catalog
           Demo.out Demo.inv_left Demo.log "Guard").
  vm_compute. reflexivity.
Defined.

(** X10. The run never adds a speaker to the inventory nor deletes one: a
    pool used up stays as an empty pool. What is left of each pool is an end
    piece of what it was. *)
Theorem inventory_speakers_kept fs inv dialogues out inv' log :
  repair_loop fs inv dialogues = Ok (out, inv', log) →
  dom inv' = dom inv ∧ ∀ s, pool inv' s `suffix_of` pool inv s.
Proof.
  intros Hrun. split.
  - revert inv out log Hrun.
    induction dialogues as [|dialogue rest IH]; intros inv out log Hrun.
    + by injection Hrun as <- <- <-.
    + apply repair_loop_cons_Ok in Hrun
        as (dialogue' & inv1 & taken & out' & log' & Hstep & Hrest & -> & ->).
      apply IH in Hrest. rewrite Hrest.
      apply repair_entry_Ok in Hstep as (d & -> & Hcase).
      destruct Hcase as [| |s0 f files _ _ Hpool _ _]; [done..|].
      apply dom_insert_lookup_L. by rewrite Hpool.
  - intros s. exists (taken_by s dialogues log).
    by apply (pool_split _ _ _ _ _ _ s Hrun).
Qed.

Lemma inventory_speakers_kept_witness :
  dom Demo.inv_left = dom Demo.inv0 ∧
  ∀ s, pool Demo.inv_left s `suffix_of` pool Demo.inv0 s.
Proof.
  apply (inventory_speakers_kept Demo.fs Demo.inv0 Demo.catalog
           Demo.out Demo.inv_left Demo.log).
  vm_compute. reflexivity.
Defined.

(** X11. A run that reports no update hands back the catalog it read,
    entry for entry, and leaves the inventory as the scan built it. *)
Theorem no_update_no_change fs inv dialogues out inv' log :
  repair_loop fs inv dialogues = Ok (out, inv', log) →
  updates_made log = 0 →
  out = dialogues ∧ inv' = inv.
Proof.
  revert inv out log.
  induction dialogues as [|dialogue rest IH]; intros inv out log Hrun Hzero.
  - by injection Hrun as <- <- <-.
  - apply repair_loop_cons_Ok in Hrun
      as (dialogue' & inv1 & taken & out' & log' & Hstep & Hrest & -> & ->).
    unfold updates_made in Hzero. rewrite filter_cons in Hzero.
    apply repair_entry_Ok in Hstep as (d & -> & Hcase).
    destruct Hcase as [| |s0 f files _ _ _ _ _].
    + rewrite decide_False in Hzero by by intros [? ?].
      destruct (IH _ _ _ Hrest Hzero) as [-> ->]. done.
    + rewrite decide_False in Hzero by by intros [? ?].
      destruct (IH _ _ _ Hrest Hzero) as [-> ->]. done.
    + rewrite decide_True in Hzero by eauto. done.
Qed.

Lemma no_update_no_change_witness :
  [Demo.entry 2 "Merchant" "Fine wares." "/repo/voices/Merchant/m.mp3";
   Demo.entry 4 "Ghost" "Boo." ""]
  = [Demo.entry 2 "Merchant" "Fine wares." "/repo/voices/Merchant/m.mp3";
     Demo.entry 4 "Ghost" "Boo." ""] ∧
  Demo.inv0 = Demo.inv0.
Proof.
  apply (no_update_no_change Demo.fs Demo.inv0 _ _ _ [None; None]).
  - vm_compute. reflexivity.
  - reflexivity.
Defined.

(** X12. What an entry is given depends only on the entries before it:
    two catalogs that begin with the same entries come out of their runs
    with the same entries and the same files there. *)
Theorem earlier_entries_decide fs inv common more1 more2
    out1 inv1 log1 out2 inv2 log2 :
  repair_loop fs inv (common ++ more1) = Ok (out1, inv1, log1) →
  repair_loop fs inv (common ++ more2) = Ok (out2, inv2, log2) →
  take (length common) out1 = take (length common) out2 ∧
  take (length common) log1 = take (length common) log2.
Proof.
  intros H1 H2.
  destruct (repair_loop_split _ _ _ _ _ _ _ H1)
    as (ob1 & ib1 & lb1 & oa1 & la1 & Hb1 & _ & -> & -> & Hlo1 & Hll1).
  destruct (repair_loop_split _ _ _ _ _ _ _ H2)
    as (ob2 & ib2 & lb2 & oa2 & la2 & Hb2 & _ & -> & -> & Hlo2 & Hll2).
  rewrite Hb1 in Hb2. injection Hb2 as <- <- <-.
  rewrite <- Hlo1 at 1 2. rewrite <- Hll1.
  by rewrite !take_app_length.
Qed.

Lemma earlier_entries_decide_witness :
  take 3 Demo.out = take 3 (take 3 Demo.out) ∧
  take 3 Demo.log = take 3 (take 3 Demo.log).
Proof.
  apply (earlier_entries_decide Demo.fs Demo.inv0 (take 3 Demo.catalog)
           (drop 3 Demo.catalog) [] Demo.out Demo.inv_left Demo.log
           (take 3 Demo.out) (<["Guard" := []]> Demo.inv0) (take 3 Demo.log)).
  - vm_compute. reflexivity.
  - vm_compute. reflexivity.
Defined.

(** ** How a run fails *)







(** X14. An entry without identifier or without text stops the run only
    when it would be given a file: while the pool of its speaker is empty
    it passes unchanged, and as soon as a file is there the iteration ends
    in a [KeyError] for the first of the two keys that is missing. *)
Theorem entry_without_id_or_text fs inv d s :
  dict_get d "Speaker" = Some (JStr s) →
  needs_repair fs d →
  dict_get d "Id" = None ∨ dict_get d "Text" = None →
  (pool inv s = [] → repair_entry fs inv (JObj d) = Ok (JObj d, inv, None)) ∧
  (pool inv s ≠ [] →
   repair_entry fs inv (JObj d)
     = Raise (KeyError match dict_get d "Id" with None => "Id" | Some _ => "Text" end)).
Proof.
  intros Hsp Hneed Hmissing. split.
  - by apply repair_entry_skip.
  - intros Hpool. unfold repair_entry, dict_getitem.
    rewrite Hsp. cbn [rbind]. rewrite Hneed. cbn [rbind inventory_find].
    unfold pool in Hpool. destruct (inv !! s) as [[|f files]|]; simpl in *; try done.
    destruct (dict_get d "Id"); cbn [rbind]; [|done].
    destruct Hmissing as [Hid | Htext]; [done|]. by rewrite Htext.
Qed.

Lemma entry_without_id_or_text_witness :
  repair_entry Demo.fs Demo.inv_left (JObj Odd.nameless)
    = Ok (JObj Odd.nameless, Demo.inv_left, None) ∧
  repair_entry Demo.fs Demo.inv0 (JObj Odd.nameless) = Raise (KeyError "Id").
Proof.
  destruct (entry_without_id_or_text Demo.fs Demo.inv_left Odd.nameless "Guard")
    as [Hpass _]; [reflexivity | reflexivity | left; reflexivity |].
  destruct (entry_without_id_or_text Demo.fs Demo.inv0 Odd.nameless "Guard")
    as [_ Hfail]; [reflexivity | reflexivity | left; reflexivity |].
  split.
  - apply Hpass. vm_compute. reflexivity.
  - apply Hfail. vm_compute. discriminate.
Defined.

(** ** The keys of an entry *)

Lemma keys_cons k v (d : pydict) : keys ((k, v) :: d) = k :: keys d.
Proof. done. Qed.

Lemma dict_get_None d k : dict_get d k = None ↔ k ∉ keys d.
Proof.
  induction d as [|[k' v'] d IH].
  - split; [intros _; apply not_elem_of_nil | done].
  - rewrite keys_cons, not_elem_of_cons. cbn [dict_get].
    destruct (decide (k' = k)) as [->|Hne].
    + split; [done | by intros [? _]].
    + rewrite IH. split; [intros ?; split; [congruence | done] | by intros [_ ?]].
Qed.

Lemma dict_set_keys d k v :
  keys (dict_set d k v) = if decide (k ∈ keys d) then keys d else (keys d ++ [k])%list.
Proof.
  induction d as [|[k' v'] d IH].
  - rewrite decide_False; [done | apply not_elem_of_nil].
  - cbn [dict_set]. destruct (decide (k' = k)) as [->|Hne].
    + rewrite !keys_cons. rewrite decide_True; [done | apply list_elem_of_here].
    + rewrite !keys_cons, IH. destruct (decide (k ∈ keys d)) as [Hin|Hnot].
      * rewrite decide_True; [done | by apply list_elem_of_further].
      * rewrite decide_False; [done|].
        rewrite not_elem_of_cons. split; [congruence | done].
Qed.

Lemma filter_ext_elem {A} (P Q : A → Prop)
    `{∀ x, Decision (P x)} `{∀ x, Decision (Q x)} (l : list A) :
  (∀ x, x ∈ l → P x ↔ Q x) → filter P l = filter Q l.
Proof.
  induction l as [|x l IH]; intros Hext; [done|].
  rewrite !filter_cons.
  rewrite IH by (intros y Hy; apply Hext; by apply list_elem_of_further).
  destruct (decide (P x)) as [HP|HP], (decide (Q x)) as [HQ|HQ]; try done;
    destruct (Hext x (list_elem_of_here _ _)); tauto.
Qed.

(** Setting keys one after the other appends the new ones in turn. *)
Lemma foldl_dict_set_keys (items : pydict) d :
  NoDup (keys items) →
  keys (foldl (λ d kv, dict_set d kv.1 kv.2) d items)
  = (keys d ++ filter (λ k, k ∉ keys d) (keys items))%list.
Proof.
  revert d. induction items as [|[k v] items IH]; intros d Hnd.
  - simpl. by rewrite app_nil_r.
  - rewrite keys_cons in Hnd. apply NoDup_cons in Hnd as [Hk Hnd].
    cbn [foldl fst snd]. rewrite (IH _ Hnd), dict_set_keys, keys_cons, filter_cons.
    destruct (decide (k ∈ keys d)) as [Hin|Hnot].
    + by rewrite decide_False by tauto.
    + rewrite decide_True by done. rewrite <- app_assoc. simpl. do 2 f_equal.
      apply filter_ext_elem. intros x Hx. rewrite not_elem_of_app.
      split; [by intros [? _]|]. intros ?. split; [done|].
      rewrite list_elem_of_singleton. by intros ->.
Qed.

(** The keys after lines 72-75: the old ones, then those of the four
    fields the entry lacked. *)
Lemma assign_audio_keys d new_path :
  keys (assign_audio d new_path)
  = (keys d ++ filter (λ k, k ∉ keys d) touched)%list.
Proof.
  change (assign_audio d new_path) with
    (foldl (λ d kv, dict_set d kv.1 kv.2) d
       [("AudioPath", JStr new_path); ("HasAudio", JBool true);
        ("AudioStatus", JStr "✅ Ready"); ("AudioStatusColor", JStr "Green")]).
  rewrite foldl_dict_set_keys; [done|].
  apply (bool_decide_unpack _). vm_compute. exact I.
Qed.

(** X15. The run keeps the keys of every entry in place. An entry it
    gives a file comes out with its old keys followed by those of
    [AudioPath], [HasAudio], [AudioStatus], [AudioStatusColor] it lacked,
    in this order; any other entry comes out with its own keys. *)
Theorem entry_keys_after_run fs inv dialogues out inv' log i d
    (taken : option Path) :
  repair_loop fs inv dialogues = Ok (out, inv', log) →
  dialogues !! i = Some (JObj d) →
  log !! i = Some taken →
  ∃ d', out !! i = Some (JObj d') ∧
    keys d' = (keys d ++ match taken with
                         | Some _ => filter (λ k, k ∉ keys d) touched
                         | None => []
                         end)%list.
Proof.
  intros Hrun Hi Hl.
  destruct (repair_loop_lookup _ _ _ _ _ _ _ _ Hrun Hi)
    as (inv_i & d' & inv_i' & t & _ & Hstep & Ho & Hl' & _).
  rewrite Hl in Hl'. injection Hl' as <-.
  apply repair_entry_Ok in Hstep as (d0 & [= <-] & Hcase).
  destruct Hcase.
  - exists d. by rewrite app_nil_r.
  - exists d. by rewrite app_nil_r.
  - eexists. split; [exact Ho|]. apply assign_audio_keys.
Qed.

Lemma entry_keys_after_run_witness :
  ∃ d', Demo.out !! 5 = Some (JObj d') ∧
    keys d' = ["Id"; "Speaker"; "Text";
               "AudioPath"; "HasAudio"; "AudioStatus"; "AudioStatusColor"].
Proof.
  apply (entry_keys_after_run Demo.fs Demo.inv0 Demo.catalog
           Demo.out Demo.inv_left Demo.log 5
           [("Id", JInt 6); ("Speaker", JStr "Merchant"); ("Text", JStr "Come again.")]
           (Some (Demo.voices /: "Merchant" /: "m.mp3"))).
  - vm_compute. reflexivity.
  - reflexivity.
  - reflexivity.
Defined.

(** X16. An entry whose keys are distinct, as every entry [json.load]
    builds, comes out of the run with distinct keys. *)
Theorem distinct_keys_kept fs inv dialogues out inv' log i d :
  repair_loop fs inv dialogues = Ok (out, inv', log) →
  dialogues !! i = Some (JObj d) →
  NoDup (keys d) →
  ∃ d', out !! i = Some (JObj d') ∧ NoDup (keys d').
Proof.
  intros Hrun Hi Hnd.
  destruct (repair_loop_lookup _ _ _ _ _ _ _ _ Hrun Hi)
    as (inv_i & d' & inv_i' & t & _ & Hstep & Ho & _ & _).
  apply repair_entry_Ok in Hstep as (d0 & [= <-] & Hcase).
  destruct Hcase; [by exists d..|].
  eexists. split; [exact Ho|]. rewrite assign_audio_keys.
  apply NoDup_app. split; [done|]. split.
  - intros k Hk Hin. by apply list_elem_of_filter in Hin as [? _].
  - apply NoDup_filter. unfold touched.
    apply (bool_decide_unpack _). vm_compute. exact I.
Qed.

Lemma distinct_keys_kept_witness :
  ∃ d', Demo.out !! 0 = Some (JObj d') ∧ NoDup (keys d').
Proof.
  apply (distinct_keys_kept Demo.fs Demo.inv0 Demo.catalog
           Demo.out Demo.inv_left Demo.log 0
           [("Id", JInt 1); ("Speaker", JStr "Guard"); ("Text", JStr "Halt!");
            ("AudioPath", JStr ""); ("HasAudio", JBool false);
            ("AudioStatus", JStr "Missing"); ("AudioStatusColor", JStr "Red");
            ("Mood", JStr "stern")]).
  - vm_compute. reflexivity.
  - reflexivity.
  - apply (bool_decide_unpack _). vm_compute. exact I.
Defined.

(** ** Running the script again *)

Lemma assign_audio_wf d new_path :
  entry_wf (JObj d) → entry_wf (JObj (assign_audio d new_path)).
Proof.
  intros (Hid & Hsp & Ht & _). unfold entry_wf.
  rewrite !assign_audio_other
    by (unfold touched; intros Hin;
        repeat (apply elem_of_cons in Hin as [Hin|Hin]; [done|]);
        by apply elem_of_nil in Hin).
  repeat split; try done.
  intros v Hv. destruct (assign_audio_get d new_path) as [Hp _].
  rewrite Hp in Hv. injection Hv as <-. eauto.
Qed.

Lemma string_app_ne_nil (a b : string) : b ≠ "" → a +:+ b ≠ "".
Proof.
  intros Hb Heq. apply (f_equal String.length) in Heq.
  rewrite string_length_app in Heq. destruct b; [done | simpl in Heq; lia].
Qed.

(** A file taken from a scanned inventory, and its path. *)
Lemma assigned_from_glob fs voices_dir inv dialogues out inv' log i f :
  scan_inventory fs voices_dir = Ok inv →
  repair_loop fs inv dialogues = Ok (out, inv', log) →
  log !! i = Some (Some f) →
  ∃ s name, f = voices_dir /: s /: name ∧ f ∈ glob_mp3 fs (voices_dir /: s).
Proof.
  intros Hscan Hrun Hi.
  destruct (taken_by_elem _ _ _ _ _ _ _ _ Hrun Hi) as (d & s & _ & _ & Hf).
  apply (taken_in_pool _ _ _ _ _ _ _ _ Hrun) in Hf.
  destruct (pool_of_scan _ _ _ s Hscan) as [Hnil|Hglob].
  { rewrite Hnil in Hf. by apply elem_of_nil in Hf. }
  rewrite Hglob in Hf. pose proof Hf as Hin.
  apply glob_mp3_children in Hf as (name & -> & _). eauto.
Qed.

(** X17. The script can be run on its own output: from a catalog of
    well-formed entries a run yields a catalog of well-formed entries, and
    the loop over that catalog completes, whatever the inventory. *)
Theorem output_can_be_rerun fs inv inv2 dialogues out inv' log :
  Forall entry_wf dialogues →
  repair_loop fs inv dialogues = Ok (out, inv', log) →
  Forall entry_wf out ∧
  ∃ out2 inv2' log2,
    repair_loop fs inv2 out = Ok (out2, inv2', log2) ∧ length out2 = length dialogues.
Proof.
  intros Hwf Hrun.
  assert (Forall entry_wf out) as Hwf'.
  { apply Forall_lookup. intros i dialogue' Ho.
    destruct (repair_loop_length _ _ _ _ _ _ Hrun) as [Hlen _].
    destruct (lookup_lt_is_Some_2 dialogues i) as [dialogue Hi].
    { rewrite <- Hlen. by eapply lookup_lt_Some. }
    destruct (repair_loop_lookup _ _ _ _ _ _ _ _ Hrun Hi)
      as (inv_i & d' & inv_i' & t & _ & Hstep & Ho' & _ & _).
    rewrite Ho in Ho'. injection Ho' as <-.
    pose proof (proj1 (Forall_lookup _ _) Hwf _ _ Hi) as Hd.
    apply repair_entry_Ok in Hstep as (d & -> & Hcase).
    destruct Hcase; [done..|]. by apply assign_audio_wf. }
  split; [done|].
  destruct (repair_loop_total fs inv2 out Hwf') as (out2 & inv2' & log2 & Hrun2).
  exists out2, inv2', log2. split; [done|].
  destruct (repair_loop_length _ _ _ _ _ _ Hrun) as [<- _].
  by eapply repair_loop_length.
Qed.

Lemma output_can_be_rerun_witness :
  Forall entry_wf Demo.out ∧
  ∃ out2 inv2' log2,
    repair_loop Demo.fs Demo.inv0 Demo.out = Ok (out2, inv2', log2) ∧
    length out2 = length Demo.catalog.
Proof.
  apply (output_can_be_rerun Demo.fs Demo.inv0 Demo.inv0 Demo.catalog
           Demo.out Demo.inv_left Demo.log).
  - repeat constructor; try (eexists; reflexivity);
      intros v Hv; vm_compute in Hv; try discriminate;
      injection Hv as <-; eexists; reflexivity.
  - vm_compute. reflexivity.
Defined.

(** X18. A repaired entry stays repaired: when the file given to an entry
    exists for [os.path.exists] under the path written, a second run over
    the output skips the entry and leaves it as the first run wrote it. *)
Theorem repaired_entry_stable
    fs voices_dir inv inv2 dialogues out inv' log out2 inv2' log2 i f :
  scan_inventory fs voices_dir = Ok inv →
  repair_loop fs inv dialogues = Ok (out, inv', log) →
  repair_loop fs inv2 out = Ok (out2, inv2', log2) →
  log !! i = Some (Some f) →
  fs_str_exists fs (path_str f) = true →
  out2 !! i = out !! i ∧ log2 !! i = Some None.
Proof.
  intros Hscan Hrun Hrun2 Hi Hex.
  destruct (log_assigned _ _ _ _ _ _ _ _ Hrun Hi)
    as (d & ? & ? & ? & _ & _ & _ & _ & _ & Ho).
  destruct (assigned_from_glob _ _ _ _ _ _ _ _ _ Hscan Hrun Hi) as (s & name & Hf & _).
  assert (has_valid_audio fs (assign_audio d (path_str f)) = Ok true) as Hvalid.
  { destruct (assign_audio_get d (path_str f)) as [Hp _].
    rewrite (has_valid_audio_str _ _ _ Hp), Hex, andb_true_r.
    assert (path_str f ≠ "") as Hne.
    { rewrite Hf, path_str_file. by do 2 apply string_app_ne_nil. }
    apply String.eqb_neq in Hne. by rewrite Hne. }
  rewrite Ho. by eapply valid_entry_kept.
Qed.

Lemma repaired_entry_stable_witness :
  Demo.out2 !! 0 = Demo.out !! 0 ∧ Demo.log2 !! 0 = Some None.
Proof.
  apply (repaired_entry_stable Demo.fs Demo.voices Demo.inv0 Demo.inv0 Demo.catalog
           Demo.out Demo.inv_left Demo.log Demo.out2 Demo.inv_left2 Demo.log2
           0 (Demo.voices /: "Guard" /: "a.mp3")).
  - vm_compute. reflexivity.
  - vm_compute. reflexivity.
  - vm_compute. reflexivity.
  - reflexivity.
  - vm_compute. reflexivity.
Defined.

(** ** A catalog that is not a list *)

(** X19. A catalog whose top value is an object or a string is gone
    through key by key, or character by character: the empty object and the
    empty string are written back as they are, with no update, and any
    other makes the first iteration fail with a type error, after the scan.
    A number, a truth value or null has no length: the script fails before
    the scan. *)
Theorem catalog_not_a_list_cases fs repo_root dialogues :
  fs_load_json fs (catalog_path repo_root) = Ok dialogues →
  match dialogues with
  | JList _ => True
  | JObj [] | JStr "" =>
      run_at fs repo_root =
        let! _ := scan_inventory fs (voices_path repo_root) in Ok (dialogues, [])
  | JObj _ | JStr _ =>
      run_at fs repo_root =
        let! _ := scan_inventory fs (voices_path repo_root) in Raise TypeError
  | _ => run_at fs repo_root = Raise TypeError
  end.
Proof.
  intros Hload. unfold run_at. rewrite Hload. cbn [rbind].
  destruct dialogues as [| | | |s|l|items]; try done.
  - destruct s; cbn [py_len_ok rbind py_iter];
      by destruct (scan_inventory fs (voices_path repo_root)).
  - destruct items as [|[k v] items]; cbn [py_len_ok rbind py_iter];
      by destruct (scan_inventory fs (voices_path repo_root)).
Qed.

Lemma catalog_not_a_list_cases_witness :
  run_at (Odd.fs_with (JObj [])) Demo.repo = Ok (JObj [], []) ∧
  run_at (Odd.fs_with (JObj [("entries", JList Demo.catalog)])) Demo.repo
    = Raise TypeError.
Proof.
  split.
  - rewrite (catalog_not_a_list_cases (Odd.fs_with (JObj [])) Demo.repo (JObj []));
      [|reflexivity]. vm_compute. reflexivity.
  - rewrite (catalog_not_a_list_cases
               (Odd.fs_with (JObj [("entries", JList Demo.catalog)])) Demo.repo
               (JObj [("entries", JList Demo.catalog)])); [|reflexivity].
    vm_compute. reflexivity.
Defined.

(** ** All or nothing *)

(** X20. The four fields of an entry change together or not at all: after
    a run every entry is either exactly the entry read, with no file taken,
    or carries the path of the file taken for it, the has-audio flag set and
    both status fields at their ready values. The run never clears a
    has-audio flag and never writes a status other than ready. *)
Theorem update_all_or_nothing fs inv dialogues out inv' log i d :
  repair_loop fs inv dialogues = Ok (out, inv', log) →
  dialogues !! i = Some (JObj d) →
  ∃ d', out !! i = Some (JObj d') ∧
    ((log !! i = Some None ∧ d' = d) ∨
     (∃ f, log !! i = Some (Some f) ∧
        dict_get d' "AudioPath" = Some (JStr (path_str f)) ∧
        dict_get d' "HasAudio" = Some (JBool true) ∧
        dict_get d' "AudioStatus" = Some (JStr "✅ Ready") ∧
        dict_get d' "AudioStatusColor" = Some (JStr "Green"))).
Proof.
  intros Hrun Hi.
  destruct (repair_loop_lookup _ _ _ _ _ _ _ _ Hrun Hi)
    as (inv_i & d' & inv_i' & t & _ & Hstep & Ho & Hl & _).
  apply repair_entry_Ok in Hstep as (d0 & [= <-] & Hcase).
  destruct Hcase as [| |s f files].
  - exists d. split; [done|]. by left.
  - exists d. split; [done|]. by left.
  - eexists. split; [exact Ho|]. right. exists f. split; [done|].
    apply assign_audio_get.
Qed.

Lemma update_all_or_nothing_witness :
  ∃ d', Demo.out !! 3 = Some (JObj d') ∧
    ((Demo.log !! 3 = Some None ∧
      d' = [("Id", JInt 4); ("Speaker", JStr "Ghost"); ("Text", JStr "Boo.");
            ("AudioPath", JStr ""); ("HasAudio", JBool false);
            ("AudioStatus", JStr "Missing"); ("AudioStatusColor", JStr "Red");
            ("Mood", JStr "stern")]) ∨
     (∃ f, Demo.log !! 3 = Some (Some f) ∧
        dict_get d' "AudioPath" = Some (JStr (path_str f)) ∧
        dict_get d' "HasAudio" = Some (JBool true) ∧
        dict_get d' "AudioStatus" = Some (JStr "✅ Ready") ∧
        dict_get d' "AudioStatusColor" = Some (JStr "Green"))).
Proof.
  apply (update_all_or_nothing Demo.fs Demo.inv0 Demo.catalog
           Demo.out Demo.inv_left Demo.log 3).
  - vm_compute. reflexivity.
  - reflexivity.
Defined.
